(** * Review subsystem of the movie-viewer pages

    Shallow embedding of the review logic shared by the genre pages
    (src/unnamed/part_001 and the copies in part_000 and
    src/app/horror/page.tsx): the local-storage helpers
    [loadReviewsFromLocalStorage] / [saveReviewsToLocalStorage], the submit
    handler [handleReviewSubmit] with the other state-changing handlers,
    [sortedReviews] and [renderStars]. *)

From Stdlib Require Import QArith Qround Lia Lqa Sorted Permutation Ascii.
From stdpp Require Import base gmap strings list pretty.

(* ------------------------------------------------------------------ *)
(** ** JavaScript numbers *)

(** A JS number: a finite value (every finite double is a rational) or one
    of the three non-finite values. *)
Inductive jsnum :=
| JFin (q : Q)
| JNaN
| JPosInf
| JNegInf.

Definition js_of_Z (z : Z) : jsnum := JFin (inject_Z z).

Definition Qltb (x y : Q) : bool := negb (Qle_bool y x).

(** [a < b] *)
Definition js_lt (a b : jsnum) : bool :=
  match a, b with
  | JFin x, JFin y => Qltb x y
  | JNaN, _ | _, JNaN => false
  | JNegInf, JNegInf => false
  | JNegInf, _ => true
  | JFin _, JPosInf => true
  | _, _ => false
  end.

Definition js_gt (a b : jsnum) : bool := js_lt b a.

(** [a >= b]: false as soon as one side is NaN. *)
Definition js_ge (a b : jsnum) : bool :=
  match a, b with
  | JNaN, _ | _, JNaN => false
  | _, _ => negb (js_lt a b)
  end.

(** [1 <= a <= 10] on numbers: false for NaN. *)
Definition js_in_range (a : jsnum) : bool :=
  js_ge a (js_of_Z 1) && js_ge (js_of_Z 10) a.

Definition js_add (a b : jsnum) : jsnum :=
  match a, b with
  | JFin x, JFin y => JFin (x + y)
  | JNaN, _ | _, JNaN => JNaN
  | JPosInf, JNegInf | JNegInf, JPosInf => JNaN
  | JPosInf, _ | _, JPosInf => JPosInf
  | JNegInf, _ | _, JNegInf => JNegInf
  end.

Definition js_neg (a : jsnum) : jsnum :=
  match a with
  | JFin x => JFin (- x)
  | JNaN => JNaN
  | JPosInf => JNegInf
  | JNegInf => JPosInf
  end.

Definition js_sub (a b : jsnum) : jsnum := js_add a (js_neg b).

(** [Math.floor] *)
Definition js_floor (a : jsnum) : jsnum :=
  match a with
  | JFin x => JFin (inject_Z (Qfloor x))
  | _ => a
  end.

(** [a % 1]: the remainder keeps the sign of the dividend, i.e. it is
    [a - trunc a]; it is NaN for an infinite dividend. *)
Definition js_trunc_Q (x : Q) : Z :=
  if Qle_bool 0 x then Qfloor x else (- Qfloor (- x))%Z.

Definition js_mod1 (a : jsnum) : jsnum :=
  match a with
  | JFin x => JFin (x - inject_Z (js_trunc_Q x))
  | _ => JNaN
  end.

(** [Math.max(a, b)] *)
Definition js_max (a b : jsnum) : jsnum :=
  match a, b with
  | JNaN, _ | _, JNaN => JNaN
  | _, _ => if js_lt a b then b else a
  end.

(** Errors the code can raise. *)
Inductive js_error :=
| RangeError
| SyntaxError.

Inductive result (A : Type) :=
| Ok (a : A)
| Err (e : js_error).
Arguments Ok {A} a.
Arguments Err {A} e.

Definition bind {A B} (r : result A) (f : A -> result B) : result B :=
  match r with
  | Ok a => f a
  | Err e => Err e
  end.

(** Largest array length, [2^32 - 1]. *)
Definition max_array_length : Z := 4294967295.

(** [Array(len)] with a number argument: the length must be an integer in
    [0, 2^32 - 1] (ToUint32(len) must equal len), otherwise a RangeError. *)
Definition js_array_length (len : jsnum) : result nat :=
  match len with
  | JFin x =>
      if Qeq_bool x (inject_Z (Qfloor x))
         && Z.leb 0 (Qfloor x) && Z.leb (Qfloor x) max_array_length
      then Ok (Z.to_nat (Qfloor x))
      else Err RangeError
  | _ => Err RangeError
  end.

(* ------------------------------------------------------------------ *)
(** ** [renderStars] *)

Inductive glyph :=
| FaStar
| FaStarHalfAlt
| FaRegStar.

(** [renderStars(rating)]: the three counts, then the JSX children in
    order; [Array(n).fill(0).map(...)] yields [n] glyphs. *)
Definition renderStars (rating : jsnum) : result (list glyph) :=
  let fullStars := js_floor rating in
  let hasHalfStar := js_ge (js_mod1 rating) (JFin (1 # 2)) in
  let emptyStars :=
    js_max (js_of_Z 0)
      (js_sub (js_sub (js_of_Z 10) fullStars)
         (if hasHalfStar then js_of_Z 1 else js_of_Z 0)) in
  bind (js_array_length fullStars) (fun nfull =>
  bind (js_array_length emptyStars) (fun nempty =>
  Ok (repeat FaStar nfull
      ++ (if hasHalfStar then [FaStarHalfAlt] else [])
      ++ repeat FaRegStar nempty))).

(** The counts of [renderStars] for a finite rating, as the source
    computes them. *)
Definition half_of (q : Q) : bool :=
  Qle_bool (1 # 2) (q - inject_Z (js_trunc_Q q)).

Definition stars_of (nfull : Z) (half : bool) (nempty : Z) : list glyph :=
  repeat FaStar (Z.to_nat nfull)
  ++ (if half then [FaStarHalfAlt] else [])
  ++ repeat FaRegStar (Z.to_nat nempty).

(* ------------------------------------------------------------------ *)
(** ** JSON text and values *)

(** Stored text, seen at the level of JSON lexemes: a number or string
    literal is one lexeme carrying its value (JSON.stringify prints a finite
    double so that JSON.parse reads the same double back, and escapes a
    string so that it reads back as the same string).  A number literal
    beyond the double range (such as [1e400] or [-1e400]) is [TNumInf],
    which JSON.parse reads as [Infinity] or [-Infinity].  Whitespace is kept
    as a lexeme, so a blank non-empty string stays distinct from [""]; a
    character that starts no JSON lexeme is [TBad]. *)
Inductive token :=
| TLBrack | TRBrack | TLBrace | TRBrace | TComma | TColon
| TNull | TTrue | TFalse
| TNum (q : Q)
| TNumInf (neg : bool)
| TStr (s : string)
| TWs
| TBad (c : Ascii.ascii).

Abbreviation text := (list token).

#[local] Set Warnings "-register-all".

(** JavaScript values produced by JSON.parse or given to JSON.stringify;
    an object is the list of its own properties in insertion order. *)
Inductive jsval :=
| VNull
| VBool (b : bool)
| VNum (n : jsnum)
| VStr (s : string)
| VArr (l : list jsval)
| VObj (l : list (string * jsval)).

Fixpoint join_comma (ts : list text) : text :=
  match ts with
  | [] => []
  | [t] => t
  | t :: r => t ++ TComma :: join_comma r
  end.

(** JSON.stringify: NaN and the infinities are written as [null]. *)
Fixpoint json_stringify (v : jsval) : text :=
  match v with
  | VNull => [TNull]
  | VBool true => [TTrue]
  | VBool false => [TFalse]
  | VNum (JFin q) => [TNum q]
  | VNum _ => [TNull]
  | VStr s => [TStr s]
  | VArr l => TLBrack :: join_comma (map json_stringify l) ++ [TRBrack]
  | VObj fs =>
      TLBrace
        :: join_comma (map (fun kv => TStr kv.1 :: TColon :: json_stringify kv.2) fs)
        ++ [TRBrace]
  end.

Fixpoint skip_ws (ts : text) : text :=
  match ts with
  | TWs :: r => skip_ws r
  | _ => ts
  end.

(** Property definition while parsing an object: a repeated key keeps its
    first position and takes the last value. *)
Fixpoint obj_set (fs : list (string * jsval)) (k : string) (v : jsval)
  : list (string * jsval) :=
  match fs with
  | [] => [(k, v)]
  | (k', v') :: r =>
      if String.eqb k k' then (k, v) :: r else (k', v') :: obj_set r k v
  end.

(** JSON.parse, by recursive descent; [fuel] bounds the nesting. *)
Fixpoint parse_value (fuel : nat) (ts : text) : option (jsval * text) :=
  match fuel with
  | O => None
  | S f =>
      match skip_ws ts with
      | TNull :: r => Some (VNull, r)
      | TTrue :: r => Some (VBool true, r)
      | TFalse :: r => Some (VBool false, r)
      | TNum q :: r => Some (VNum (JFin q), r)
      | TNumInf false :: r => Some (VNum JPosInf, r)
      | TNumInf true :: r => Some (VNum JNegInf, r)
      | TStr s :: r => Some (VStr s, r)
      | TLBrack :: r =>
          match skip_ws r with
          | TRBrack :: r' => Some (VArr [], r')
          | _ => parse_elems f r []
          end
      | TLBrace :: r =>
          match skip_ws r with
          | TRBrace :: r' => Some (VObj [], r')
          | _ => parse_members f r []
          end
      | _ => None
      end
  end
with parse_elems (fuel : nat) (ts : text) (acc : list jsval)
  : option (jsval * text) :=
  match fuel with
  | O => None
  | S f =>
      match parse_value f ts with
      | None => None
      | Some (v, r) =>
          match skip_ws r with
          | TComma :: r' => parse_elems f r' (acc ++ [v])
          | TRBrack :: r' => Some (VArr (acc ++ [v]), r')
          | _ => None
          end
      end
  end
with parse_members (fuel : nat) (ts : text) (acc : list (string * jsval))
  : option (jsval * text) :=
  match fuel with
  | O => None
  | S f =>
      match skip_ws ts with
      | TStr k :: r =>
          match skip_ws r with
          | TColon :: r1 =>
              match parse_value f r1 with
              | None => None
              | Some (v, r2) =>
                  match skip_ws r2 with
                  | TComma :: r3 => parse_members f r3 (obj_set acc k v)
                  | TRBrace :: r3 => Some (VObj (obj_set acc k v), r3)
                  | _ => None
                  end
              end
          | _ => None
          end
      | _ => None
      end
  end.

(** JSON.parse(text): one value, then only whitespace, or a SyntaxError.
    Every two steps of the descent consume a lexeme, so the fuel
    [2 * length + 2] never runs out first. *)
Definition json_parse (t : text) : result jsval :=
  match parse_value (2 * length t + 2) t with
  | Some (v, r) =>
      match skip_ws r with
      | [] => Ok v
      | _ => Err SyntaxError
      end
  | None => Err SyntaxError
  end.

(* ------------------------------------------------------------------ *)
(** ** The review store *)

(** [interface Review { rating: number; comment: string; }]; a review
    object also has its identity [oid] (the [===] used by [indexOf]). *)
Record review := mkReview {
  oid : positive;
  rating : jsnum;
  comment : string
}.

(** The object [{ rating, comment }] as a JS value. *)
Definition review_val (r : review) : jsval :=
  VObj [("rating", VNum (rating r)); ("comment", VStr (comment r))].

(** localStorage: string keys, stored texts. *)
Abbreviation storage := (gmap string text).

(** [`movie-reviews-${movieId}`] *)
Definition review_key (movieId : Z) : string :=
  String.append "movie-reviews-" (pretty movieId).

(** [const reviews = localStorage.getItem(key);
     return reviews ? JSON.parse(reviews) : [];]
    Only [null] and [""] are falsy among the possible results of getItem. *)
Definition loadReviewsFromLocalStorage (ls : storage) (movieId : Z)
  : result jsval :=
  match ls !! review_key movieId with
  | Some ((_ :: _) as t) => json_parse t
  | _ => Ok (VArr [])
  end.

(** [localStorage.setItem(key, JSON.stringify(reviews))] *)
Definition saveReviewsToLocalStorage (ls : storage) (movieId : Z)
  (reviews : list review) : storage :=
  <[review_key movieId := json_stringify (VArr (map review_val reviews))]> ls.

(** What JSON.parse gives back for a review written by JSON.stringify. *)
Definition num_json (n : jsnum) : jsval :=
  match n with
  | JFin q => VNum (JFin q)
  | _ => VNull
  end.

Definition review_json (r : review) : jsval :=
  VObj [("rating", num_json (rating r)); ("comment", VStr (comment r))].

Definition is_finite (n : jsnum) : bool :=
  match n with
  | JFin _ => true
  | _ => false
  end.

(* ------------------------------------------------------------------ *)
(** ** The page component ([Home], and [Comedy], [Horror] alike) *)

(** [interface Movie] *)
Record movie := mkMovie {
  id : Z;
  title : string;
  overview : string;
  poster_path : string;
  vote_average : jsnum
}.

Inductive sort_option := Newest | Highest | Lowest.

Module Page.

(** The state hooks the review logic reads or writes, and the browser's
    localStorage.  [next_oid] supplies the identities of new objects.
    [movies], [trailer], [isModalOpen] and [activeTab] are not read by the
    review logic and are left out. *)
Record state := mkState {
  currentMovie : option movie;
  rating : option jsnum;
  comment : string;
  reviews : list review;
  errorMessage : string;
  sortOption : sort_option;
  localStorage : storage;
  next_oid : positive
}.

Definition initial (ls : storage) : state :=
  mkState None None "" [] "" Newest ls 1.

Definition rating_message : string := "Rating must be between 1 and 10.".

Definition setErrorMessage (st : state) (msg : string) : state :=
  mkState (currentMovie st) (rating st) (comment st) (reviews st) msg
    (sortOption st) (localStorage st) (next_oid st).

(** [rating < 1 || rating > 10] *)
Definition out_of_range (v : jsnum) : bool :=
  js_lt v (js_of_Z 1) || js_gt v (js_of_Z 10).

(** [handleReviewSubmit] *)
Definition handleReviewSubmit (st : state) : state :=
  match currentMovie st, rating st with
  | Some m, Some v =>
      if String.eqb (comment st) "" then st
      else if out_of_range v then setErrorMessage st rating_message
      else
        let newReview := mkReview (next_oid st) v (comment st) in
        let updatedReviews := reviews st ++ [newReview] in
        mkState (currentMovie st) None "" updatedReviews ""
          (sortOption st)
          (saveReviewsToLocalStorage (localStorage st) (id m) updatedReviews)
          (Pos.succ (next_oid st))
  | _, _ => st
  end.

(** [handleRatingChange] with [value = Number(e.target.value)]. *)
Definition handleRatingChange (st : state) (value : jsnum) : state :=
  mkState (currentMovie st) (Some value) (comment st) (reviews st)
    (if out_of_range value then rating_message else "")
    (sortOption st) (localStorage st) (next_oid st).

(** [openModal(movie)] (the trailer fetch does not touch this state). *)
Definition openModal (st : state) (m : movie) : state :=
  mkState (Some m) (rating st) (comment st) (reviews st) (errorMessage st)
    (sortOption st) (localStorage st) (next_oid st).

(** [closeModal] *)
Definition closeModal (st : state) : state :=
  mkState None (rating st) (comment st) (reviews st) (errorMessage st)
    (sortOption st) (localStorage st) (next_oid st).

(** The textarea's [onChange]: [setComment(e.target.value)]. *)
Definition setComment (st : state) (c : string) : state :=
  mkState (currentMovie st) (rating st) c (reviews st) (errorMessage st)
    (sortOption st) (localStorage st) (next_oid st).

(** The select's [onChange]: [setSortOption(...)]. *)
Definition setSortOption (st : state) (o : sort_option) : state :=
  mkState (currentMovie st) (rating st) (comment st) (reviews st)
    (errorMessage st) o (localStorage st) (next_oid st).

(** [obj.key] on a parsed object (the first property with that key). *)
Fixpoint get_property (fs : list (string * jsval)) (k : string) : option jsval :=
  match fs with
  | [] => None
  | (k', v) :: r => if String.eqb k k' then Some v else get_property r k
  end.

(** A parsed element read as a review object, with identity [o]. *)
Definition review_of_val (o : positive) (v : jsval) : option review :=
  match v with
  | VObj fs =>
      match get_property fs "rating", get_property fs "comment" with
      | Some (VNum n), Some (VStr c) => Some (mkReview o n c)
      | _, _ => None
      end
  | _ => None
  end.

(** The parsed array of reviews, as objects with fresh identities. *)
Fixpoint reviews_of_vals (o : positive) (vs : list jsval) : option (list review) :=
  match vs with
  | [] => Some []
  | v :: r =>
      match review_of_val o v, reviews_of_vals (Pos.succ o) r with
      | Some x, Some xs => Some (x :: xs)
      | _, _ => None
      end
  end.

(** The effect [if (currentMovie) setReviews(loadReviewsFromLocalStorage(
    currentMovie.id))].  A load that raises, or a stored value that is not
    an array of [{rating: number, comment: string}] objects, is outside
    this model: no step. *)
Definition loadEffect (st : state) : option state :=
  match currentMovie st with
  | Some m =>
      match loadReviewsFromLocalStorage (localStorage st) (id m) with
      | Ok (VArr vs) =>
          match reviews_of_vals (next_oid st) vs with
          | Some rs =>
              Some (mkState (currentMovie st) (rating st) (comment st) rs
                      (errorMessage st) (sortOption st) (localStorage st)
                      (Pos.add (next_oid st) (Pos.of_nat (S (length vs)))))
          | None => None
          end
      | _ => None
      end
  | None => None
  end.

(** User actions and the effect. *)
Inductive event :=
| OpenModal (m : movie)
| CloseModal
| ReviewsLoaded
| RatingChange (value : jsnum)
| CommentChange (c : string)
| SortChange (o : sort_option)
| Submit.

(** One step.  The rating field is an [<input type="number">]: the browser
    sanitizes its value to [""] or a valid floating-point number, so
    [Number(e.target.value)] is never NaN. *)
Definition step (st : state) (e : event) : option state :=
  match e with
  | OpenModal m => Some (openModal st m)
  | CloseModal => Some (closeModal st)
  | ReviewsLoaded => loadEffect st
  | RatingChange JNaN => None
  | RatingChange v => Some (handleRatingChange st v)
  | CommentChange c => Some (setComment st c)
  | SortChange o => Some (setSortOption st o)
  | Submit => Some (handleReviewSubmit st)
  end.

Inductive reachable : state -> Prop :=
| reachable_initial (ls : storage) : reachable (initial ls)
| reachable_step (st st' : state) (e : event) :
    reachable st -> step st e = Some st' -> reachable st'.

End Page.
(* ------------------------------------------------------------------ *)
(** ** [sortedReviews] *)

(** Arrays live in a heap: a reference maps to the array's elements. *)
Abbreviation heap := (gmap positive (list review)).

(** [arr.indexOf(x)]: strict equality on objects is identity. *)
Fixpoint index_of_from (arr : list review) (x : review) (i : Z) : Z :=
  match arr with
  | [] => (-1)%Z
  | y :: r => if Pos.eqb (oid y) (oid x) then i else index_of_from r x (i + 1)
  end.

Definition indexOf (arr : list review) (x : review) : Z := index_of_from arr x 0.

(** SortCompare: the comparator's result, NaN read as [+0]. *)
Definition sort_compare (cmp : review -> review -> jsnum) (x y : review) : jsnum :=
  match cmp x y with
  | JNaN => js_of_Z 0
  | v => v
  end.

(** [Array.prototype.sort] is stable; for a comparator that is a
    consistent ordering every stable sort yields the same array, and this
    model computes it by insertion: [x] goes before [y] exactly when
    [compare(y, x) > 0]. *)
Fixpoint sort_insert (cmp : review -> review -> jsnum) (x : review)
  (l : list review) : list review :=
  match l with
  | [] => [x]
  | y :: r =>
      if js_gt (sort_compare cmp y x) (js_of_Z 0) then x :: y :: r
      else y :: sort_insert cmp x r
  end.

Definition js_sort (cmp : review -> review -> jsnum) (l : list review)
  : list review :=
  fold_left (fun acc x => sort_insert cmp x acc) l [].

(** The comparator passed to [sort]; [reviews] is the original array. *)
Definition review_comparator (h : heap) (reviews : positive)
  (sortOption : sort_option) (a b : review) : jsnum :=
  match sortOption with
  | Newest =>
      let arr := default [] (h !! reviews) in
      js_sub (js_of_Z (indexOf arr b)) (js_of_Z (indexOf arr a))
  | Highest => js_sub (rating b) (rating a)
  | Lowest => js_sub (rating a) (rating b)
  end.

(** [const sortedReviews = [...reviews].sort(comparator)]: a new array
    [copy] holding the same objects, sorted in place. *)
Definition sortedReviews (h : heap) (reviews : positive)
  (sortOption : sort_option) : heap * positive :=
  let copy := fresh (dom h) in
  let h1 := <[copy := default [] (h !! reviews)]> h in
  let h2 := <[copy := js_sort (review_comparator h1 reviews sortOption)
                        (default [] (h1 !! copy))]> h1 in
  (h2, copy).

(** Whether [sort] moves [x] in front of [y]: [compare(y, x) > 0]. *)
Definition goes_before (cmp : review -> review -> jsnum) (y x : review) : bool :=
  js_gt (sort_compare cmp y x) (js_of_Z 0).

(** Order by a rational rank. *)
Definition rank_le (rank : review -> Q) (a b : review) : Prop := (rank a <= rank b)%Q.

(** A review whose rating is a finite number. *)
Definition finite_rating (r : review) : Prop := is_finite (rating r) = true.

(** The rating of a finite review, as a rational. *)
Definition rating_q (n : jsnum) : Q :=
  match n with
  | JFin q => q
  | _ => 0
  end.

(* ------------------------------------------------------------------ *)
(** ** [handleSearch] and the [SearchBar] *)

(** [String.prototype.toLowerCase] on one UTF-16 code unit below 256;
    a [string] here is a sequence of such code units (Latin-1 text).
    'A'..'Z', U+00C0..U+00D6 and U+00D8..U+00DE map to the code unit 32
    above them; every other code unit below 256 is its own lowercase. *)
Definition to_lower_char (c : ascii) : ascii :=
  let n := nat_of_ascii c in
  if (Nat.leb 65 n && Nat.leb n 90) || (Nat.leb 192 n && Nat.leb n 214)
     || (Nat.leb 216 n && Nat.leb n 222)
  then ascii_of_nat (n + 32) else c.

(** [s.toLowerCase()] *)
Fixpoint toLowerCase (s : string) : string :=
  match s with
  | EmptyString => EmptyString
  | String c s' => String (to_lower_char c) (toLowerCase s')
  end.

(** [s.includes(q)]: [q] occurs in [s] at some index. *)
Fixpoint includes (s q : string) : bool :=
  String.prefix q s
  || match s with
     | EmptyString => false
     | String _ s' => includes s' q
     end.

(** [handleSearch(query)]: the new [filteredMovies], filtered from the
    fetched [movies]. *)
Definition handleSearch (movies : list movie) (query : string) : list movie :=
  let lowercasedQuery := toLowerCase query in
  List.filter (fun movie => includes (toLowerCase (title movie)) lowercasedQuery)
    movies.

(** The [SearchBar]'s [handleChange]: [setQuery(newQuery); onSearch(newQuery)];
    the result is the search bar's [query] and the page's [filteredMovies]. *)
Definition searchBar_handleChange (movies : list movie) (newQuery : string)
  : string * list movie :=
  (newQuery, handleSearch movies newQuery).

(* ------------------------------------------------------------------ *)
(** ** [fetchTrailer] *)

(** [interface Trailer] *)
Record trailer := mkTrailer {
  key : string;
  site : string
}.

(** The outcome of the [videos] request: [None] when it is rejected or its
    [data.results] is not an array (the [catch] branch), otherwise the
    results. *)
Definition videos_response := option (list trailer).

(** [response.data.results.filter((video) => video.site === 'YouTube')] *)
Definition youtube_trailers (results : list trailer) : list trailer :=
  List.filter (fun video => String.eqb (site video) "YouTube") results.

(** [fetchTrailer] of [Home] (src/unnamed/part_001) and of the [Comedy] and
    [Horror] pages of src/unnamed/part_000: [setTrailer(trailers[1])] when
    there is at least one YouTube video.  The result is the new value of
    the [trailer] state from its previous value [prev]; [None] stands for
    [null] and for [undefined] (an index past the end), which the modal
    renders alike ([trailer ? <iframe> : <img>]). *)
Module Home.
Definition fetchTrailer (prev : option trailer) (response : videos_response)
  : option trailer :=
  match response with
  | None => prev
  | Some results =>
      let trailers := youtube_trailers results in
      if Nat.ltb 0 (length trailers) then nth_error trailers 1 else prev
  end.
End Home.

(** [fetchTrailer] of src/app/horror/page.tsx: [setTrailer(trailers[0])]. *)
Module HorrorPage.
Definition fetchTrailer (prev : option trailer) (response : videos_response)
  : option trailer :=
  match response with
  | None => prev
  | Some results =>
      let trailers := youtube_trailers results in
      if Nat.ltb 0 (length trailers) then nth_error trailers 0 else prev
  end.
End HorrorPage.

(* ------------------------------------------------------------------ *)
(** ** [Navbar] *)

Definition dquote : string := String (ascii_of_nat 34) EmptyString.

Definition active_link_style : string :=
  String.append
    "relative text-red-400 after:absolute after:left-0 after:right-0 after:bottom-[-2px] after:h-[1.8px] after:bg-red-400 after:content-["
    (String.append dquote (String.append dquote "]")).

Definition inactive_link_style : string :=
  "text-white hover:text-red-400 transition-colors duration-300".

(** [linkStyle(path)] under the current [pathname]. *)
Definition linkStyle (pathname path : string) : string :=
  if String.eqb pathname path then active_link_style else inactive_link_style.

(** The class names of the three links, in order. *)
Definition navbar_link_classes (pathname : string) : list string :=
  map (fun path => String.append "-mt-14 h-5 " (linkStyle pathname path))
    ["/comedy"; "/horror"; "/animation"].

(* ------------------------------------------------------------------ *)
(** ** Facts about the number model *)

Lemma Qle_bool_Z (a b : Z) : Qle_bool (inject_Z a) (inject_Z b) = (a <=? b)%Z.
Proof. unfold Qle_bool; simpl. rewrite !Z.mul_1_r. reflexivity. Qed.

Lemma js_sub_Z (a b : Z) : js_sub (js_of_Z a) (js_of_Z b) = js_of_Z (a - b).
Proof.
  unfold js_sub, js_of_Z; simpl.
  rewrite <- inject_Z_opp, <- inject_Z_plus. reflexivity.
Qed.

Lemma js_max_Z (a b : Z) : js_max (js_of_Z a) (js_of_Z b) = js_of_Z (Z.max a b).
Proof.
  unfold js_max, js_lt, Qltb, js_of_Z. rewrite Qle_bool_Z.
  destruct (Z.leb_spec b a); simpl; f_equal; f_equal; lia.
Qed.

Lemma js_array_length_Z (z : Z) :
  js_array_length (js_of_Z z) =
  if (0 <=? z)%Z && (z <=? max_array_length)%Z then Ok (Z.to_nat z)
  else Err RangeError.
Proof.
  unfold js_array_length, js_of_Z. rewrite Qfloor_Z, Qeq_bool_refl.
  reflexivity.
Qed.

Lemma js_trunc_Q_nonneg (q : Q) : (0 <= q)%Q -> js_trunc_Q q = Qfloor q.
Proof.
  intros H. unfold js_trunc_Q.
  apply Qle_bool_iff in H. rewrite H. reflexivity.
Qed.

Lemma renderStars_JFin (q : Q) :
  renderStars (JFin q) =
  if (0 <=? Qfloor q)%Z && (Qfloor q <=? max_array_length)%Z then
    Ok (stars_of (Qfloor q) (half_of q)
          (Z.max 0 (10 - Qfloor q - (if half_of q then 1 else 0)))%Z)
  else Err RangeError.
Proof.
  unfold renderStars.
  assert (Hh : js_ge (js_mod1 (JFin q)) (JFin (1 # 2)) = half_of q).
  { unfold js_ge, js_mod1, js_lt, Qltb, half_of. simpl.
    apply negb_involutive. }
  rewrite Hh. simpl js_floor.
  change (JFin (inject_Z (Qfloor q))) with (js_of_Z (Qfloor q)).
  rewrite js_array_length_Z.
  destruct ((0 <=? Qfloor q)%Z && (Qfloor q <=? max_array_length)%Z) eqn:E;
    [| reflexivity].
  cbn [bind].
  assert (Hs : js_sub (js_sub (js_of_Z 10) (js_of_Z (Qfloor q)))
                 (if half_of q then js_of_Z 1 else js_of_Z 0)
               = js_of_Z (10 - Qfloor q - (if half_of q then 1 else 0))%Z).
  { destruct (half_of q); rewrite !js_sub_Z; reflexivity. }
  rewrite Hs, js_max_Z, js_array_length_Z.
  apply andb_true_iff in E as [E1 E2].
  apply Z.leb_le in E1. apply Z.leb_le in E2.
  replace ((0 <=? Z.max 0 (10 - Qfloor q - (if half_of q then 1 else 0)))%Z
           && (Z.max 0 (10 - Qfloor q - (if half_of q then 1 else 0))
               <=? max_array_length)%Z) with true.
  - reflexivity.
  - symmetry. apply andb_true_iff. split; apply Z.leb_le;
      unfold max_array_length in *; destruct (half_of q); lia.
Qed.

Lemma Qfloor_nonneg (q : Q) : (0 <= q)%Q -> (0 <= Qfloor q)%Z.
Proof.
  intros H. apply Qfloor_resp_le in H. exact H.
Qed.

Lemma Qfloor_lt_Z (q : Q) (z : Z) : (q < inject_Z z)%Q -> (Qfloor q < z)%Z.
Proof.
  intros H. pose proof (Qfloor_le q) as Hf.
  rewrite Zlt_Qlt. eapply Qle_lt_trans; eassumption.
Qed.

Lemma Qfloor_neg (q : Q) : (q < 0)%Q -> (Qfloor q < 0)%Z.
Proof. intros H. apply (Qfloor_lt_Z q 0). exact H. Qed.

Lemma Z_le_Qfloor (q : Q) (z : Z) : (inject_Z z <= q)%Q -> (z <= Qfloor q)%Z.
Proof. intros H. apply Qfloor_resp_le in H. rewrite Qfloor_Z in H. exact H. Qed.

Lemma length_stars_of (f : Z) (h : bool) (e : Z) :
  length (stars_of f h e) = (Z.to_nat f + (if h then 1 else 0) + Z.to_nat e)%nat.
Proof.
  unfold stars_of. rewrite !length_app, !repeat_length.
  destruct h; simpl; lia.
Qed.

Lemma renderStars_ge_2_32 (q : Q) :
  (inject_Z 4294967296 <= q)%Q -> renderStars (JFin q) = Err RangeError.
Proof.
  intros Hq. pose proof (Z_le_Qfloor q _ Hq) as Hf.
  rewrite renderStars_JFin.
  replace ((Qfloor q <=? max_array_length)%Z) with false.
  - destruct (0 <=? Qfloor q)%Z; reflexivity.
  - symmetry. apply Z.leb_gt. unfold max_array_length. lia.
Qed.

(** ** Claims about [renderStars] *)

(** C7: for a rating in [0,10], [renderStars] emits [floor(rating)] full
    stars, one half star iff [rating % 1 >= 0.5], then
    [max(0, 10 - full - half)] empty stars, in that order, 10 glyphs in all;
    [renderStars(7)] is 7 full + 3 empty, [renderStars(7.5)] is 7 full +
    1 half + 2 empty, [renderStars(10)] is 10 full. *)
Theorem renderStars_in_range (q : Q) :
  (0 <= q <= 10)%Q ->
  let f := Qfloor q in
  let h := Qle_bool (1 # 2) (q - inject_Z f) in
  let e := Z.max 0 (10 - f - (if h then 1 else 0)) in
  renderStars (JFin q) = Ok (stars_of f h e)
  /\ (0 <= f)%Z /\ (f + (if h then 1 else 0) + e = 10)%Z
  /\ length (stars_of f h e) = 10%nat
  /\ renderStars (JFin 7) = Ok (stars_of 7 false 3)
  /\ renderStars (JFin (15 # 2)) = Ok (stars_of 7 true 2)
  /\ renderStars (JFin 10) = Ok (stars_of 10 false 0).
Proof.
  intros [H0 H10] f h e.
  assert (Hh : half_of q = h).
  { unfold half_of, h, f. rewrite js_trunc_Q_nonneg by exact H0. reflexivity. }
  assert (Hf0 : (0 <= f)%Z) by (apply Qfloor_nonneg; exact H0).
  assert (Hf10 : (f <= 10)%Z).
  { apply Qfloor_resp_le in H10. exact H10. }
  assert (Hfh : (f + (if h then 1 else 0) <= 10)%Z).
  { destruct h eqn:Eh; [| lia].
    destruct (Z.eq_dec f 10%Z) as [E|E]; [| lia].
    exfalso. apply Qle_bool_iff in Eh.
    pose proof (Qfloor_le q) as Hl. fold f in Hl. rewrite E in Hl, Eh.
    unfold inject_Z in *. lra. }
  assert (He : (f + (if h then 1 else 0) + e = 10)%Z).
  { unfold e. destruct h; lia. }
  split; [| split; [exact Hf0 | split; [exact He | split]]].
  - rewrite renderStars_JFin, Hh. fold f.
    replace ((0 <=? f)%Z && (f <=? max_array_length)%Z) with true.
    + reflexivity.
    + symmetry. apply andb_true_iff. unfold max_array_length.
      split; apply Z.leb_le; lia.
  - rewrite length_stars_of. unfold e in *. destruct h; lia.
  - vm_compute. repeat split; reflexivity.
Qed.

(** C8 (refuted): a rating above 10 can still produce a half star: 10.5
    gives 10 full stars and one half star; and the full-star count is not
    [floor(rating)] for ratings from [2^32] on, where [Array] raises. *)
Lemma renderStars_above_ten_half :
  renderStars (JFin (21 # 2)) = Ok (repeat FaStar 10 ++ [FaStarHalfAlt])
  /\ renderStars (JFin (inject_Z 4294967296)) = Err RangeError.
Proof. vm_compute. split; reflexivity. Qed.

(** C8 (amended): for a rating [10 < rating < 2^32], [renderStars] emits
    [floor(rating)] full stars (at least 10, not capped), one half star
    exactly when [rating % 1 >= 0.5], and no empty star; for a finite
    rating from [2^32] on, and for [+Infinity], the full-star [Array]
    raises a RangeError. *)
Theorem renderStars_above_ten (q : Q) :
  (10 < q)%Q ->
  ((q < inject_Z 4294967296)%Q ->
   renderStars (JFin q)
   = Ok (stars_of (Qfloor q) (Qle_bool (1 # 2) (q - inject_Z (Qfloor q))) 0)
   /\ (10 <= Qfloor q)%Z)
  /\ ((inject_Z 4294967296 <= q)%Q -> renderStars (JFin q) = Err RangeError)
  /\ renderStars JPosInf = Err RangeError.
Proof.
  intros H10. split; [| split; [apply renderStars_ge_2_32 | vm_compute; reflexivity]].
  intros Hmax.
  assert (Hf : (10 <= Qfloor q)%Z).
  { apply Z_le_Qfloor. apply Qlt_le_weak. exact H10. }
  assert (Hm : (Qfloor q < 4294967296)%Z) by (apply Qfloor_lt_Z; exact Hmax).
  split; [| exact Hf].
  rewrite renderStars_JFin.
  unfold half_of. rewrite js_trunc_Q_nonneg by (apply Qlt_le_weak;
    apply Qlt_trans with 10%Q; [reflexivity | exact H10]).
  replace ((0 <=? Qfloor q)%Z && (Qfloor q <=? max_array_length)%Z) with true.
  - f_equal. f_equal.
    destruct (Qle_bool (1 # 2) (q - inject_Z (Qfloor q))); lia.
  - symmetry. apply andb_true_iff. unfold max_array_length.
    split; apply Z.leb_le; lia.
Qed.

(** C10 (refuted): [renderStars] is not defined on every nonnegative
    rating: at [2^32] and at [+Infinity] the full-star [Array] raises. *)
Lemma renderStars_nonneg_raises :
  renderStars (JFin (inject_Z 4294967296)) = Err RangeError
  /\ renderStars JPosInf = Err RangeError.
Proof. vm_compute. split; reflexivity. Qed.

(** C10 (amended): for a finite rating in [0, 2^32) [renderStars] returns
    a glyph sequence whose three counts are nonnegative; for every negative
    finite rating, for [-Infinity] and [NaN], and for ratings from [2^32]
    on and [+Infinity], the full-star [Array(floor(rating))] raises a
    RangeError. *)
Theorem renderStars_domain :
  (forall q : Q, (0 <= q)%Q -> (q < inject_Z 4294967296)%Q ->
     exists f e : Z, (0 <= f)%Z /\ (0 <= e)%Z /\
       renderStars (JFin q) = Ok (stars_of f (half_of q) e))
  /\ (forall q : Q, (q < 0)%Q -> renderStars (JFin q) = Err RangeError)
  /\ (forall q : Q, (inject_Z 4294967296 <= q)%Q ->
        renderStars (JFin q) = Err RangeError)
  /\ renderStars JPosInf = Err RangeError
  /\ renderStars JNegInf = Err RangeError
  /\ renderStars JNaN = Err RangeError.
Proof.
  split; [| split; [| split; [| split; [| split]]]].
  - intros q H0 Hmax.
    pose proof (Qfloor_nonneg q H0) as Hf0.
    pose proof (Qfloor_lt_Z q _ Hmax) as Hm.
    eexists _, _. split; [exact Hf0 | split; [apply Z.le_max_l |]].
    rewrite renderStars_JFin.
    replace ((0 <=? Qfloor q)%Z && (Qfloor q <=? max_array_length)%Z)
      with true; [reflexivity |].
    symmetry. apply andb_true_iff. unfold max_array_length.
    split; apply Z.leb_le; lia.
  - intros q Hq. pose proof (Qfloor_neg q Hq) as Hf.
    rewrite renderStars_JFin.
    replace ((0 <=? Qfloor q)%Z) with false; [reflexivity |].
    symmetry. apply Z.leb_gt. exact Hf.
  - apply renderStars_ge_2_32.
  - vm_compute. reflexivity.
  - vm_compute. reflexivity.
  - vm_compute. reflexivity.
Qed.

(** ** The review store: JSON round trip *)

Lemma parse_value_review (f : nat) (r : review) (rest : text) :
  parse_value (S (S (S (S f)))) (json_stringify (review_val r) ++ rest)
  = Some (review_json r, rest).
Proof. destruct r as [o [q| | |] c]; reflexivity. Qed.

Lemma parse_value_open_brack (f : nat) (r : text) :
  (forall r', skip_ws r <> TRBrack :: r') ->
  parse_value (S f) (TLBrack :: r) = parse_elems f r [].
Proof.
  intros H. cbn [parse_value skip_ws].
  destruct (skip_ws r) as [|t r'] eqn:E; [reflexivity|].
  destruct t; try reflexivity. exfalso. eapply H. reflexivity.
Qed.

Lemma parse_elems_S (f : nat) (ts : text) (acc : list jsval) :
  parse_elems (S f) ts acc =
  match parse_value f ts with
  | None => None
  | Some (v, r) =>
      match skip_ws r with
      | TComma :: r' => parse_elems f r' (acc ++ [v])
      | TRBrack :: r' => Some (VArr (acc ++ [v]), r')
      | _ => None
      end
  end.
Proof. reflexivity. Qed.

Lemma join_comma_cons (t : text) (ts : list text) :
  ts <> [] -> join_comma (t :: ts) = t ++ TComma :: join_comma ts.
Proof. destruct ts; [congruence | reflexivity]. Qed.

Lemma parse_elems_reviews (rs : list review) :
  forall (r : review) (f : nat) (acc : list jsval) (rest : text),
  (length rs + 4 <= f)%nat ->
  parse_elems (S f)
    (join_comma (map json_stringify (map review_val (r :: rs))) ++ TRBrack :: rest)
    acc
  = Some (VArr (acc ++ map review_json (r :: rs)), rest).
Proof.
  induction rs as [|r' rs IH]; intros r f acc rest Hf.
  - destruct f as [|[|[|[|f]]]]; simpl in Hf; try lia.
    cbn [map join_comma].
    rewrite parse_elems_S, parse_value_review. reflexivity.
  - destruct f as [|[|[|[|f]]]]; simpl in Hf; try lia.
    change (map json_stringify (map review_val (r :: r' :: rs)))
      with (json_stringify (review_val r)
              :: map json_stringify (map review_val (r' :: rs))).
    rewrite join_comma_cons by discriminate. rewrite <- app_assoc.
    rewrite parse_elems_S, parse_value_review. cbn [skip_ws app].
    specialize (IH r' (S (S (S f))) (acc ++ [review_json r]) rest).
    rewrite IH by (simpl; lia).
    rewrite <- app_assoc. reflexivity.
Qed.

Lemma length_join_comma (ts : list text) :
  Forall (fun t => t <> []) ts -> (length ts <= length (join_comma ts))%nat.
Proof.
  induction ts as [|t ts IH]; intros H; [simpl; lia|].
  inversion H as [|? ? Ht Hts]; subst.
  destruct ts as [|t' ts'].
  - simpl. destruct t; [congruence | simpl; lia].
  - change (join_comma (t :: t' :: ts')) with (t ++ TComma :: join_comma (t' :: ts')).
    rewrite length_app. simpl length at 1. specialize (IH Hts).
    simpl length in *. destruct t; [congruence | simpl; lia].
Qed.

Lemma json_parse_reviews (rs : list review) :
  json_parse (json_stringify (VArr (map review_val rs)))
  = Ok (VArr (map review_json rs)).
Proof.
  destruct rs as [|r rs]; [reflexivity|].
  unfold json_parse.
  set (body := join_comma (map json_stringify (map review_val (r :: rs)))).
  assert (Hlen : (length (r :: rs) <= length body)%nat).
  { unfold body.
    transitivity (length (map json_stringify (map review_val (r :: rs)))).
    { rewrite !length_map. lia. }
    apply length_join_comma. rewrite Forall_map, Forall_map.
    apply Forall_forall. intros x _. destruct x as [o [q| | |] c]; discriminate. }
  assert (Hhead : exists tl, body = TLBrace :: tl).
  { unfold body. cbn [map]. destruct rs; eexists; reflexivity. }
  destruct Hhead as [tl Htl].
  change (json_stringify (VArr (map review_val (r :: rs))))
    with (TLBrack :: body ++ [TRBrack]).
  simpl length. rewrite length_app. simpl length.
  replace (2 * S (length body + 1) + 2)%nat
    with (S (S (2 * length body + 4)))%nat by lia.
  rewrite parse_value_open_brack
    by (rewrite Htl; intros r' Hr'; discriminate).
  unfold body in *. rewrite parse_elems_reviews.
  - reflexivity.
  - change (length (r :: rs)) with (S (length rs)) in Hlen. lia.
Qed.

Lemma load_save_json (ls : storage) (movieId : Z) (rs : list review) :
  loadReviewsFromLocalStorage (saveReviewsToLocalStorage ls movieId rs) movieId
  = Ok (VArr (map review_json rs)).
Proof.
  unfold loadReviewsFromLocalStorage, saveReviewsToLocalStorage.
  rewrite lookup_insert_eq. apply json_parse_reviews.
Qed.

Lemma review_json_finite (r : review) :
  is_finite (rating r) = true -> review_json r = review_val r.
Proof. destruct r as [o [q| | |] c]; intros H; [reflexivity | discriminate ..]. Qed.

Lemma map_review_json_finite (rs : list review) :
  Forall (fun r => is_finite (rating r) = true) rs ->
  map review_json rs = map review_val rs.
Proof.
  induction 1 as [|r rs Hr _ IH]; [reflexivity|].
  simpl. rewrite review_json_finite by exact Hr. rewrite IH. reflexivity.
Qed.

Example parse_sample :
  json_parse (json_stringify (VArr [review_val (mkReview 1 (JFin 7) "ok");
                                    review_val (mkReview 2 JNaN "x")]))
  = Ok (VArr [VObj [("rating", VNum (JFin 7)); ("comment", VStr "ok")];
              VObj [("rating", VNull); ("comment", VStr "x")]]).
Proof. vm_compute. reflexivity. Qed.


(** ** The page: invariant of the rating field *)

Lemma in_range_out_of_range (v : jsnum) :
  v <> JNaN -> js_in_range v = negb (Page.out_of_range v).
Proof.
  intros Hv. unfold js_in_range, Page.out_of_range, js_gt.
  destruct v; try congruence; simpl; try reflexivity.
  rewrite negb_orb. reflexivity.
Qed.

Lemma reachable_rating (st : Page.state) :
  Page.reachable st ->
  forall v, Page.rating st = Some v ->
  v <> JNaN
  /\ (Page.out_of_range v = true -> Page.errorMessage st = Page.rating_message).
Proof.
  induction 1 as [ls | st st' e Hr IH Hs]; intros v Hv.
  - discriminate.
  - destruct e as [m| | |value|c|o|]; simpl in Hs.
    + injection Hs as <-. apply IH. exact Hv.
    + injection Hs as <-. apply IH. exact Hv.
    + unfold Page.loadEffect in Hs.
      destruct (Page.currentMovie st); [|discriminate].
      destruct (loadReviewsFromLocalStorage _ _) as [[| | | | vs |]|];
        try discriminate.
      destruct (Page.reviews_of_vals _ _); [|discriminate].
      injection Hs as <-. apply IH. exact Hv.
    + assert (Hn : (value <> JNaN)
                   /\ (st' = Page.handleRatingChange st value)).
      { destruct value; try (injection Hs as <-; split; congruence).
        discriminate. }
      destruct Hn as [Hn ->]. simpl in Hv. injection Hv as <-.
      split; [exact Hn|]. intros Ho. simpl. rewrite Ho. reflexivity.
    + injection Hs as <-. apply IH. exact Hv.
    + injection Hs as <-. apply IH. exact Hv.
    + injection Hs as <-. unfold Page.handleReviewSubmit in *.
      destruct (Page.currentMovie st) as [m|]; [|apply IH; exact Hv].
      destruct (Page.rating st) as [w|] eqn:Ew; [|congruence].
      destruct (String.eqb (Page.comment st) "");
        [rewrite Ew in Hv; apply IH; exact Hv|].
      destruct (Page.out_of_range w) eqn:Eo.
      * simpl in Hv. rewrite Ew in Hv. injection Hv as <-.
        split; [apply (IH w); reflexivity | reflexivity].
      * discriminate.
Qed.

Lemma out_of_range_in_1_10 (q : Q) :
  (1 <= q <= 10)%Q -> Page.out_of_range (JFin q) = false.
Proof.
  intros [H1 H10]. unfold Page.out_of_range, js_gt, js_lt, Qltb, js_of_Z.
  apply Qle_bool_iff in H1. apply Qle_bool_iff in H10.
  change (inject_Z 1) with 1%Q. change (inject_Z 10) with 10%Q.
  rewrite H1, H10. reflexivity.
Qed.

Lemma renderStars_Ok_finite (n : jsnum) (gs : list glyph) :
  renderStars n = Ok gs -> is_finite n = true.
Proof. destruct n; [reflexivity | vm_compute; discriminate ..]. Qed.

(** ** Claims about the review store *)

(** C1: with the movie's stored collection [C] loaded as the page's
    [reviews], submitting a review with rating in [1,10] and a non-empty
    comment saves [C ++ [r]], so that loading gives back [C ++ [r]] in
    order; the rating input becomes [null], the comment [""], and the
    error message is cleared.  The Submit button sits in the reviews tab,
    which renders [renderStars(review.rating)] for every review of
    [sortedReviews] (a permutation of [reviews]); a submit therefore
    happens only after [renderStars] returned for every review of [C]. *)
Theorem submit_appends (st : Page.state) (m : movie) (q : Q) :
  Page.currentMovie st = Some m ->
  loadReviewsFromLocalStorage (Page.localStorage st) (id m)
    = Ok (VArr (map review_val (Page.reviews st))) ->
  Forall (fun r => exists gs, renderStars (rating r) = Ok gs) (Page.reviews st) ->
  Page.rating st = Some (JFin q) -> (1 <= q <= 10)%Q ->
  Page.comment st <> "" ->
  let st' := Page.handleReviewSubmit st in
  let r := mkReview (Page.next_oid st) (JFin q) (Page.comment st) in
  Page.reviews st' = Page.reviews st ++ [r]
  /\ Page.localStorage st'
     = saveReviewsToLocalStorage (Page.localStorage st) (id m)
         (Page.reviews st ++ [r])
  /\ loadReviewsFromLocalStorage (Page.localStorage st') (id m)
     = Ok (VArr (map review_val (Page.reviews st) ++ [review_val r]))
  /\ Page.rating st' = None /\ Page.comment st' = ""
  /\ Page.errorMessage st' = "".
Proof.
  intros Hm Hload Hrender Hr Hq Hc st' r.
  assert (Hst' : st' = Page.mkState (Page.currentMovie st) None ""
                   (Page.reviews st ++ [r]) "" (Page.sortOption st)
                   (saveReviewsToLocalStorage (Page.localStorage st) (id m)
                      (Page.reviews st ++ [r]))
                   (Pos.succ (Page.next_oid st))).
  { unfold st', Page.handleReviewSubmit. rewrite Hm, Hr.
    destruct (String.eqb_spec (Page.comment st) "") as [E|_]; [congruence|].
    rewrite out_of_range_in_1_10 by exact Hq. reflexivity. }
  rewrite Hst'. cbn [Page.reviews Page.localStorage Page.rating
                     Page.comment Page.errorMessage].
  split; [reflexivity | split; [reflexivity | split; [| auto]]].
  rewrite load_save_json, map_review_json_finite, map_app; [reflexivity|].
  apply Forall_app. split.
  - eapply Forall_impl; [exact Hrender|]. intros x [gs Hgs].
    apply renderStars_Ok_finite with gs. exact Hgs.
  - constructor; [reflexivity | constructor].
Qed.

(** C2 (refuted): [load] raises a SyntaxError on a stored text that is
    not JSON ("abc"), and returns a non-array ([null]) for the text
    "null". *)
Lemma load_malformed_raises :
  loadReviewsFromLocalStorage
    (<[review_key 1 := [TBad "a"%char; TBad "b"%char; TBad "c"%char]]> (∅ : storage)) 1
  = Err SyntaxError
  /\ loadReviewsFromLocalStorage (<[review_key 1 := [TNull]]> (∅ : storage)) 1
     = Ok VNull.
Proof.
  unfold loadReviewsFromLocalStorage. rewrite !lookup_insert_eq.
  split; reflexivity.
Qed.

(** C2 (amended): [load(movieId)] returns [[]] when there is no entry
    under [movie-reviews-<movieId>] or the entry is the empty string;
    otherwise it returns JSON.parse of the stored text, raising a
    SyntaxError exactly when JSON.parse does; it never raises on a text
    written by [save]. *)
Theorem load_contract (ls : storage) (movieId : Z) :
  (ls !! review_key movieId = None ->
     loadReviewsFromLocalStorage ls movieId = Ok (VArr []))
  /\ (ls !! review_key movieId = Some [] ->
       loadReviewsFromLocalStorage ls movieId = Ok (VArr []))
  /\ (forall t : text, ls !! review_key movieId = Some t -> t <> [] ->
       loadReviewsFromLocalStorage ls movieId = json_parse t)
  /\ (forall rs : list review, exists v,
       loadReviewsFromLocalStorage (saveReviewsToLocalStorage ls movieId rs)
         movieId = Ok v).
Proof.
  split; [intros H; unfold loadReviewsFromLocalStorage; rewrite H; reflexivity|].
  split; [intros H; unfold loadReviewsFromLocalStorage; rewrite H; reflexivity|].
  split.
  - intros t Ht Hne. unfold loadReviewsFromLocalStorage. rewrite Ht. destruct t; [congruence | reflexivity].
  - intros rs. eexists. apply load_save_json.
Qed.

(** C3 (refuted): a review whose rating is NaN, +Infinity or -Infinity
    does not survive the round trip: it is saved with [rating: null]. *)
Lemma load_save_nan :
  loadReviewsFromLocalStorage
    (saveReviewsToLocalStorage ∅ 1 [mkReview 1 JNaN "bad"]) 1
  <> Ok (VArr (map review_val [mkReview 1 JNaN "bad"]))
  /\ loadReviewsFromLocalStorage
    (saveReviewsToLocalStorage ∅ 1 [mkReview 1 JPosInf "bad"]) 1
  <> Ok (VArr (map review_val [mkReview 1 JPosInf "bad"]))
  /\ loadReviewsFromLocalStorage
    (saveReviewsToLocalStorage ∅ 1 [mkReview 1 JNegInf "bad"]) 1
  <> Ok (VArr (map review_val [mkReview 1 JNegInf "bad"])).
Proof. rewrite !load_save_json. repeat split; discriminate. Qed.

(** C3 (amended): loading after saving gives back every review, in order,
    with its comment; a finite rating comes back as the same number, a
    rating that is NaN, +Infinity or -Infinity comes back as [null]. So
    for every collection whose ratings are finite numbers, loading after
    saving gives the same collection back. *)
Theorem load_save_roundtrip (ls : storage) (movieId : Z) (rs : list review) :
  loadReviewsFromLocalStorage (saveReviewsToLocalStorage ls movieId rs) movieId
  = Ok (VArr (map (fun r => if is_finite (rating r) then review_val r
                            else VObj [("rating", VNull); ("comment", VStr (comment r))])
                  rs))
  /\ (Forall (fun r => is_finite (rating r) = true) rs ->
      loadReviewsFromLocalStorage (saveReviewsToLocalStorage ls movieId rs) movieId
      = Ok (VArr (map review_val rs))).
Proof.
  split.
  - rewrite load_save_json. do 2 f_equal. apply map_ext.
    intros [o [q| | |] c]; reflexivity.
  - intros H. rewrite load_save_json, map_review_json_finite by exact H.
    reflexivity.
Qed.

(** ** Claims about [handleReviewSubmit] *)

(** C4: in every state the page can reach, submitting a rating that is not
    in [1,10] (0 or 11 among them) performs no save: the state is left as
    it is except for the error message, which is then
    "Rating must be between 1 and 10.". *)
Theorem submit_rejects_out_of_range (st : Page.state) (v : jsnum) :
  Page.reachable st ->
  Page.rating st = Some v -> js_in_range v = false ->
  let st' := Page.handleReviewSubmit st in
  (st' = st \/ st' = Page.setErrorMessage st Page.rating_message)
  /\ Page.localStorage st' = Page.localStorage st
  /\ Page.reviews st' = Page.reviews st
  /\ Page.errorMessage st' = Page.rating_message.
Proof.
  intros Hr Hv Hin st'.
  destruct (reachable_rating st Hr v Hv) as [Hnan Hmsg].
  rewrite in_range_out_of_range in Hin by exact Hnan.
  apply negb_false_iff in Hin.
  assert (Hcase : st' = st \/ st' = Page.setErrorMessage st Page.rating_message).
  { unfold st', Page.handleReviewSubmit. rewrite Hv.
    destruct (Page.currentMovie st); [|left; reflexivity].
    destruct (String.eqb (Page.comment st) ""); [left; reflexivity|].
    rewrite Hin. right. reflexivity. }
  split; [exact Hcase|].
  destruct Hcase as [-> | ->]; repeat split; try reflexivity.
  apply Hmsg. exact Hin.
Qed.

(** C5: submitting with an empty comment changes nothing: no save, no
    error message, same state. *)
Theorem submit_empty_comment (st : Page.state) :
  Page.comment st = "" -> Page.handleReviewSubmit st = st.
Proof.
  intros Hc. unfold Page.handleReviewSubmit. rewrite Hc.
  destruct (Page.currentMovie st), (Page.rating st); reflexivity.
Qed.

(** C9: with no movie selected, or no rating entered, submitting is a
    no-op whatever the comment. *)
Theorem submit_no_movie_or_rating (st : Page.state) :
  Page.currentMovie st = None \/ Page.rating st = None ->
  Page.handleReviewSubmit st = st.
Proof.
  intros [H | H]; unfold Page.handleReviewSubmit; rewrite H;
    [reflexivity | destruct (Page.currentMovie st); reflexivity].
Qed.

(** ** [sortedReviews]: insertion sort under an ordering *)

Section InsertionSort.

Variable cmp : review -> review -> jsnum.
Variable P : review -> Prop.
Variable le : review -> review -> Prop.

(** [compare(y, x) > 0] puts [x] first, and then [x] may precede [y];
    otherwise [y] may precede [x]. *)
Hypothesis before_true : forall y x, P y -> P x ->
  goes_before cmp y x = true -> le x y.
Hypothesis before_false : forall y x, P y -> P x ->
  goes_before cmp y x = false -> le y x.

Lemma sort_insert_perm (x : review) (l : list review) :
  Permutation (sort_insert cmp x l) (x :: l).
Proof.
  induction l as [|y l IH]; cbn [sort_insert]; [reflexivity|].
  destruct (js_gt (sort_compare cmp y x) (js_of_Z 0)); [reflexivity|].
  rewrite IH. apply perm_swap.
Qed.

Lemma js_sort_perm_acc (s acc : list review) :
  Permutation (fold_left (fun acc x => sort_insert cmp x acc) s acc) (s ++ acc).
Proof.
  revert acc. induction s as [|x s IH]; intros acc; simpl; [reflexivity|].
  rewrite IH, sort_insert_perm. apply Permutation_sym, Permutation_middle.
Qed.

Lemma js_sort_perm (l : list review) : Permutation (js_sort cmp l) l.
Proof. unfold js_sort. rewrite js_sort_perm_acc, app_nil_r. reflexivity. Qed.

Lemma sort_insert_sorted (x : review) (l : list review) :
  P x -> Forall P l -> Sorted le l -> Sorted le (sort_insert cmp x l).
Proof.
  intros Hx. induction l as [|y l IH]; intros Hl Hs; cbn [sort_insert].
  - repeat constructor.
  - inversion Hl as [|? ? Hy Hl']; subst.
    destruct (js_gt (sort_compare cmp y x) (js_of_Z 0)) eqn:E.
    + constructor; [exact Hs|]. constructor. apply before_true; assumption.
    + apply Sorted_inv in Hs as [Hs Hhd].
      constructor; [apply IH; assumption|].
      destruct l as [|z l']; cbn [sort_insert].
      * constructor. apply before_false; assumption.
      * destruct (js_gt (sort_compare cmp z x) (js_of_Z 0)).
        -- constructor. apply before_false; assumption.
        -- inversion Hhd; subst. constructor. assumption.
Qed.

Lemma js_sort_sorted_acc (s acc : list review) :
  Forall P s -> Forall P acc -> Sorted le acc ->
  Sorted le (fold_left (fun acc x => sort_insert cmp x acc) s acc).
Proof.
  revert acc. induction s as [|x s IH]; intros acc Hs Hacc Hsorted; simpl;
    [exact Hsorted|].
  inversion Hs as [|? ? Hx Hs']; subst.
  apply IH; [exact Hs' | | apply sort_insert_sorted; assumption].
  apply (Permutation_Forall (Permutation_sym (sort_insert_perm x acc))).
  constructor; assumption.
Qed.

Lemma js_sort_sorted (l : list review) :
  Forall P l -> Sorted le (js_sort cmp l).
Proof.
  intros H. apply js_sort_sorted_acc; [exact H | constructor | constructor].
Qed.

End InsertionSort.

(** ** [sortedReviews]: the three orders *)

Lemma index_of_from_app (p s : list review) (x : review) (i : Z) :
  ~ In (oid x) (map oid p) ->
  index_of_from (p ++ x :: s) x i = (i + Z.of_nat (length p))%Z.
Proof.
  revert i. induction p as [|y p IH]; intros i Hn; simpl.
  - rewrite Pos.eqb_refl. lia.
  - simpl in Hn. destruct (Pos.eqb_spec (oid y) (oid x)) as [E|E].
    + exfalso. apply Hn. left. exact E.
    + rewrite IH by tauto. lia.
Qed.

Lemma indexOf_app (p s : list review) (x : review) :
  NoDup (map oid (p ++ x :: s)) -> indexOf (p ++ x :: s) x = Z.of_nat (length p).
Proof.
  intros H. unfold indexOf. rewrite index_of_from_app; [lia|].
  rewrite map_app in H. simpl in H.
  apply NoDup_app in H as [_ [Hd _]]. intros Hin.
  apply (Hd (oid x)); [apply list_elem_of_In; exact Hin | apply list_elem_of_here].
Qed.

Lemma js_sort_newest_acc (arr : list review) (h : heap) (reviews : positive) :
  h !! reviews = Some arr -> NoDup (map oid arr) ->
  forall s p, arr = p ++ s ->
  fold_left (fun acc x => sort_insert (review_comparator h reviews Newest) x acc)
    s (rev p) = rev arr.
Proof.
  intros Harr Hnd s. induction s as [|x s IH]; intros p Hp.
  - simpl. rewrite Hp, app_nil_r. reflexivity.
  - simpl. assert (Hins : sort_insert (review_comparator h reviews Newest) x (rev p)
                          = rev (p ++ [x])).
    { rewrite rev_app_distr. simpl.
      destruct (rev p) as [|y t] eqn:Er; [reflexivity|].
      assert (Hp' : p = rev t ++ [y]).
      { rewrite <- (rev_involutive p), Er. reflexivity. }
      simpl.
      unfold sort_compare, review_comparator. rewrite Harr. simpl default.
      assert (Hix : indexOf arr x = Z.of_nat (length p)).
      { rewrite Hp. apply indexOf_app. rewrite <- Hp. exact Hnd. }
      assert (Hiy : indexOf arr y = Z.of_nat (length (rev t))).
      { assert (Harr' : arr = rev t ++ y :: x :: s)
          by (rewrite Hp, Hp', <- app_assoc; reflexivity).
        rewrite Harr'. apply indexOf_app. rewrite <- Harr'. exact Hnd. }
      rewrite Hix, Hiy, Hp', length_app. simpl length.
      rewrite <- inject_Z_opp, <- inject_Z_plus.
      replace (Z.of_nat (length (rev t) + 1) + - Z.of_nat (length (rev t)))%Z
        with 1%Z by lia.
      reflexivity. }
    rewrite Hins. apply IH. rewrite Hp, <- app_assoc. reflexivity.
Qed.

Lemma js_sub_fin_gt (a b : Q) :
  js_gt (js_sub (JFin a) (JFin b)) (js_of_Z 0) = negb (Qle_bool a b).
Proof.
  unfold js_gt, js_lt, js_sub, js_add, js_neg, js_of_Z, Qltb. simpl.
  f_equal. apply Bool.eq_iff_eq_true. rewrite !Qle_bool_iff.
  change (inject_Z 0) with 0%Q. split; intros; lra.
Qed.

Lemma finite_rating_JFin (r : review) :
  finite_rating r -> rating r = JFin (rating_q (rating r)).
Proof. unfold finite_rating. destruct (rating r); simpl; congruence. Qed.

Lemma goes_before_highest (h : heap) (reviews : positive) (y x : review) :
  finite_rating y -> finite_rating x ->
  goes_before (review_comparator h reviews Highest) y x
  = negb (Qle_bool (rating_q (rating x)) (rating_q (rating y))).
Proof.
  destruct y as [oy [qy| | |] cy], x as [ox [qx| | |] cx];
    unfold finite_rating; simpl; intros Hy Hx; try discriminate.
  exact (js_sub_fin_gt qx qy).
Qed.

Lemma goes_before_lowest (h : heap) (reviews : positive) (y x : review) :
  finite_rating y -> finite_rating x ->
  goes_before (review_comparator h reviews Lowest) y x
  = negb (Qle_bool (rating_q (rating y)) (rating_q (rating x))).
Proof.
  destruct y as [oy [qy| | |] cy], x as [ox [qx| | |] cx];
    unfold finite_rating; simpl; intros Hy Hx; try discriminate.
  exact (js_sub_fin_gt qy qx).
Qed.

Lemma sortedReviews_heap (h : heap) (reviews : positive) (arr : list review)
  (o : sort_option) :
  h !! reviews = Some arr ->
  let copy := fresh (dom h) in
  copy <> reviews
  /\ (sortedReviews h reviews o).2 = copy
  /\ (sortedReviews h reviews o).1 !! reviews = Some arr
  /\ (sortedReviews h reviews o).1 !! copy
     = Some (js_sort (review_comparator (<[copy := arr]> h) reviews o) arr).
Proof.
  intros Harr copy.
  assert (Hne : copy <> reviews).
  { intros E. apply (is_fresh (dom h)). fold copy. rewrite E.
    apply elem_of_dom. eexists. exact Harr. }
  unfold sortedReviews. fold copy. rewrite Harr. simpl default.
  split; [exact Hne|]. split; [reflexivity|]. cbn [fst].
  split.
  - rewrite !lookup_insert_ne by congruence. exact Harr.
  - rewrite lookup_insert_eq, lookup_insert_eq. reflexivity.
Qed.

(** ** Claim about [sortedReviews] *)

(** C6: [sortedReviews] sorts a copy and leaves the [reviews] array as it
    is; with distinct review objects and finite ratings, 'newest' gives
    the exact reverse of insertion order, 'highest' a permutation in
    descending rating order, 'lowest' one in ascending rating order; for
    ratings [3, 9, 1] (objects A, B, C) 'highest' gives ratings [9, 3, 1],
    'lowest' [1, 3, 9] and 'newest' [C, B, A]. *)
Theorem sortedReviews_spec (h : heap) (reviews : positive) (arr : list review) :
  h !! reviews = Some arr -> NoDup (map oid arr) -> Forall finite_rating arr ->
  (forall o, (sortedReviews h reviews o).1 !! reviews = Some arr
             /\ (sortedReviews h reviews o).2 <> reviews)
  /\ (sortedReviews h reviews Newest).1 !! (sortedReviews h reviews Newest).2
     = Some (rev arr)
  /\ (exists l,
        (sortedReviews h reviews Highest).1 !! (sortedReviews h reviews Highest).2
        = Some l
        /\ Permutation l arr
        /\ Sorted (fun a b => (rating_q (rating b) <= rating_q (rating a))%Q) l)
  /\ (exists l,
        (sortedReviews h reviews Lowest).1 !! (sortedReviews h reviews Lowest).2
        = Some l
        /\ Permutation l arr
        /\ Sorted (fun a b => (rating_q (rating a) <= rating_q (rating b))%Q) l)
  /\ (let A := mkReview 1 (JFin 3) "A" in
      let B := mkReview 2 (JFin 9) "B" in
      let C := mkReview 3 (JFin 1) "C" in
      let h0 : heap := {[ 1%positive := [A; B; C] ]} in
      let run o := default [] ((sortedReviews h0 1 o).1
                                 !! (sortedReviews h0 1 o).2) in
      map rating (run Highest) = [JFin 9; JFin 3; JFin 1]
      /\ map rating (run Lowest) = [JFin 1; JFin 3; JFin 9]
      /\ run Newest = [C; B; A]).
Proof.
  intros Harr Hnd Hfin.
  split; [| split; [| split; [| split]]].
  - intros o. destruct (sortedReviews_heap h reviews arr o Harr)
      as [Hne [-> [Hr _]]]. split; assumption.
  - destruct (sortedReviews_heap h reviews arr Newest Harr)
      as [_ [-> [_ Hc]]]. rewrite Hc. f_equal.
    assert (Hh : <[fresh (dom h) := arr]> h !! reviews = Some arr).
    { rewrite lookup_insert_ne; [exact Harr|].
      intros E. apply (is_fresh (dom h)). rewrite E.
      apply elem_of_dom. eexists. exact Harr. }
    exact (js_sort_newest_acc arr _ reviews Hh Hnd arr [] eq_refl).
  - destruct (sortedReviews_heap h reviews arr Highest Harr)
      as [_ [-> [_ Hc]]]. eexists. split; [exact Hc|]. split.
    + apply js_sort_perm.
    + apply (js_sort_sorted _ finite_rating); [| | exact Hfin].
      * intros y x Hy Hx. rewrite goes_before_highest by assumption.
        intros E. apply negb_true_iff in E.
        rewrite <- Bool.not_true_iff_false, Qle_bool_iff in E.
        apply Qlt_le_weak, Qnot_le_lt. exact E.
      * intros y x Hy Hx. rewrite goes_before_highest by assumption.
        intros E. apply negb_false_iff, Qle_bool_iff in E. exact E.
  - destruct (sortedReviews_heap h reviews arr Lowest Harr)
      as [_ [-> [_ Hc]]]. eexists. split; [exact Hc|]. split.
    + apply js_sort_perm.
    + apply (js_sort_sorted _ finite_rating); [| | exact Hfin].
      * intros y x Hy Hx. rewrite goes_before_lowest by assumption.
        intros E. apply negb_true_iff in E.
        rewrite <- Bool.not_true_iff_false, Qle_bool_iff in E.
        apply Qlt_le_weak, Qnot_le_lt. exact E.
      * intros y x Hy Hx. rewrite goes_before_lowest by assumption.
        intros E. apply negb_false_iff, Qle_bool_iff in E. exact E.
  - vm_compute. repeat split.
Qed.

(** ** The claims at concrete inputs *)

(** [renderStars(7.5)] through [renderStars_in_range]. *)
Lemma renderStars_in_range_witness :
  renderStars (JFin (15 # 2)) = Ok (stars_of 7 true 2).
Proof.
  destruct (renderStars_in_range (15 # 2) ltac:(split; lra)) as [H _].
  exact H.
Defined.

(** [renderStars(11.5)] through [renderStars_above_ten]. *)
Lemma renderStars_above_ten_witness :
  renderStars (JFin (23 # 2)) = Ok (stars_of 11 true 0).
Proof.
  destruct (renderStars_above_ten (23 # 2) ltac:(lra)) as [H1 _].
  destruct (H1 ltac:(vm_compute; reflexivity)) as [H _].
  exact H.
Defined.

(** Submitting "great" with rating 7 on a store that already holds one
    review of movie 5, rated 8 with comment "nice". *)
Lemma submit_appends_witness :
  let m := mkMovie 5 "Alien" "" "" (JFin 8) in
  let A := mkReview 1 (JFin 8) "nice" in
  let ls : storage := {[ review_key 5 := json_stringify (VArr [review_val A]) ]} in
  let st := Page.mkState (Some m) (Some (JFin 7)) "great" [A] "" Newest ls 2 in
  Page.reviews (Page.handleReviewSubmit st) = [A; mkReview 2 (JFin 7) "great"]
  /\ loadReviewsFromLocalStorage
       (Page.localStorage (Page.handleReviewSubmit st)) 5
     = Ok (VArr [review_val A; review_val (mkReview 2 (JFin 7) "great")]).
Proof.
  intros m A ls st.
  destruct (submit_appends st m 7 eq_refl ltac:(vm_compute; reflexivity)
              ltac:(repeat constructor; eexists; vm_compute; reflexivity)
              eq_refl ltac:(split; lra) ltac:(discriminate))
    as [H1 [_ [H3 _]]].
  split; [exact H1 | exact H3].
Defined.

(** One review rated 8 survives the round trip. *)
Lemma load_save_roundtrip_witness :
  loadReviewsFromLocalStorage
    (saveReviewsToLocalStorage ∅ 1 [mkReview 1 (JFin 8) "ok"]) 1
  = Ok (VArr (map review_val [mkReview 1 (JFin 8) "ok"])).
Proof.
  exact (proj2 (load_save_roundtrip ∅ 1 [mkReview 1 (JFin 8) "ok"])
           ltac:(repeat constructor)).
Defined.

(** Open a movie, rate it 0, write a comment, submit. *)
Lemma submit_rejects_out_of_range_witness :
  let m := mkMovie 5 "Alien" "" "" (JFin 8) in
  let s1 := Page.openModal (Page.initial ∅) m in
  let s2 := Page.handleRatingChange s1 (js_of_Z 0) in
  let st := Page.setComment s2 "bad" in
  Page.errorMessage (Page.handleReviewSubmit st) = Page.rating_message
  /\ Page.localStorage (Page.handleReviewSubmit st) = ∅.
Proof.
  intros m s1 s2 st.
  assert (Hr : Page.reachable st).
  { apply (Page.reachable_step s2 st (Page.CommentChange "bad"));
      [| reflexivity].
    apply (Page.reachable_step s1 s2 (Page.RatingChange (js_of_Z 0)));
      [| reflexivity].
    apply (Page.reachable_step (Page.initial ∅) s1 (Page.OpenModal m));
      [| reflexivity].
    apply Page.reachable_initial. }
  destruct (submit_rejects_out_of_range st (js_of_Z 0) Hr eq_refl
              ltac:(vm_compute; reflexivity)) as [_ [Hls [_ Hmsg]]].
  split; [exact Hmsg | exact Hls].
Defined.

(** An empty comment with movie and rating set. *)
Lemma submit_empty_comment_witness :
  let st := Page.mkState (Some (mkMovie 5 "Alien" "" "" (JFin 8)))
              (Some (JFin 7)) "" [] "" Newest ∅ 1 in
  Page.handleReviewSubmit st = st.
Proof. intros st. exact (submit_empty_comment st eq_refl). Defined.

(** A comment and a rating but no movie. *)
Lemma submit_no_movie_or_rating_witness :
  let st := Page.mkState None (Some (JFin 7)) "nice" [] "" Newest ∅ 1 in
  Page.handleReviewSubmit st = st.
Proof.
  intros st. exact (submit_no_movie_or_rating st (or_introl eq_refl)).
Defined.

(** Three reviews stored under reference 1, sorted newest first. *)
Lemma sortedReviews_spec_witness :
  let A := mkReview 1 (JFin 3) "A" in
  let B := mkReview 2 (JFin 9) "B" in
  let C := mkReview 3 (JFin 1) "C" in
  let h0 : heap := {[ 1%positive := [A; B; C] ]} in
  (sortedReviews h0 1 Newest).1 !! (sortedReviews h0 1 Newest).2
  = Some [C; B; A].
Proof.
  intros A B C h0.
  destruct (sortedReviews_spec h0 1 [A; B; C] ltac:(vm_compute; reflexivity)
              ltac:(apply (bool_decide_unpack _); vm_compute; reflexivity)
              ltac:(repeat constructor)) as [_ [H _]].
  exact H.
Defined.

(* ------------------------------------------------------------------ *)
(** * Further properties of the code *)

(** ** The review store: one key per movie *)

Lemma string_append_inj_l (p a b : string) :
  String.append p a = String.append p b -> a = b.
Proof. induction p as [|c p IH]; simpl; [auto | intros H; injection H; auto]. Qed.

Lemma review_key_inj (a b : Z) : review_key a = review_key b -> a = b.
Proof.
  unfold review_key. intros H. apply string_append_inj_l in H.
  exact (inj pretty _ _ H).
Qed.

(** Saving the reviews of one movie leaves what [load] returns for every
    other movie as it was. *)
Theorem save_other_movie (ls : storage) (id1 id2 : Z) (rs : list review) :
  id1 <> id2 ->
  loadReviewsFromLocalStorage (saveReviewsToLocalStorage ls id1 rs) id2
  = loadReviewsFromLocalStorage ls id2.
Proof.
  intros Hne. unfold loadReviewsFromLocalStorage, saveReviewsToLocalStorage.
  rewrite lookup_insert_ne; [reflexivity|].
  intros E. apply Hne. apply review_key_inj. exact E.
Qed.

(** ** The rating check [rating < 1 || rating > 10] *)

Lemma out_of_range_false_cases (v : jsnum) :
  Page.out_of_range v = false
  <-> v = JNaN \/ exists q, v = JFin q /\ (1 <= q <= 10)%Q.
Proof.
  destruct v as [q| | |]; unfold Page.out_of_range, js_gt, js_lt, js_of_Z;
    simpl.
  - unfold Qltb. change (inject_Z 1) with 1%Q. change (inject_Z 10) with 10%Q.
    split.
    + intros H. apply orb_false_iff in H as [H1 H2].
      apply negb_false_iff, Qle_bool_iff in H1.
      apply negb_false_iff, Qle_bool_iff in H2.
      right. exists q. split; [reflexivity | split; assumption].
    + intros [H | [q' [H [H1 H2]]]]; [discriminate|]. injection H as <-.
      apply Qle_bool_iff in H1. apply Qle_bool_iff in H2.
      rewrite H1, H2. reflexivity.
  - split; [left; reflexivity | reflexivity].
  - split; [discriminate | intros [H | [q [H _]]]; discriminate].
  - split; [discriminate | intros [H | [q [H _]]]; discriminate].
Qed.

(** The check [rating < 1 || rating > 10] of [handleRatingChange] and
    [handleReviewSubmit] lets a value through exactly when it is a number
    in [1,10] or NaN: NaN fails both comparisons, and the infinities are
    rejected. *)
Theorem out_of_range_false_iff (v : jsnum) :
  Page.out_of_range v = false
  <-> v = JNaN \/ exists q, v = JFin q /\ (1 <= q <= 10)%Q.
Proof. exact (out_of_range_false_cases v). Qed.

(** ** Invariants of the page *)

Lemma loadEffect_fields (st st' : Page.state) :
  Page.loadEffect st = Some st' ->
  Page.rating st' = Page.rating st
  /\ Page.errorMessage st' = Page.errorMessage st
  /\ Page.localStorage st' = Page.localStorage st
  /\ Page.currentMovie st' = Page.currentMovie st.
Proof.
  unfold Page.loadEffect.
  destruct (Page.currentMovie st) as [m|]; [|discriminate].
  destruct (loadReviewsFromLocalStorage _ _) as [[| | | |vs|]|]; try discriminate.
  destruct (Page.reviews_of_vals _ _); [|discriminate].
  intros H. injection H as <-. repeat split.
Qed.

(** In every state the page can reach, the error message is determined by
    the rating input: "Rating must be between 1 and 10." when the rating
    is outside [1,10], and empty when it is inside or when there is no
    rating. *)
Theorem reachable_errorMessage (st : Page.state) :
  Page.reachable st ->
  Page.errorMessage st
  = match Page.rating st with
    | Some v => if Page.out_of_range v then Page.rating_message else ""
    | None => ""
    end.
Proof.
  induction 1 as [ls | st st' e Hr IH Hs].
  - reflexivity.
  - destruct e as [m| | |value|c|o|]; simpl in Hs.
    + injection Hs as <-. exact IH.
    + injection Hs as <-. exact IH.
    + destruct (loadEffect_fields st st' Hs) as [-> [-> _]]. exact IH.
    + destruct value; try discriminate; injection Hs as <-; reflexivity.
    + injection Hs as <-. exact IH.
    + injection Hs as <-. exact IH.
    + injection Hs as <-. unfold Page.handleReviewSubmit.
      destruct (Page.currentMovie st) as [m|]; [|exact IH].
      destruct (Page.rating st) as [v|] eqn:Ev; [|rewrite Ev; exact IH].
      destruct (String.eqb (Page.comment st) ""); [rewrite Ev; exact IH|].
      destruct (Page.out_of_range v) eqn:Eo; simpl.
      * rewrite Ev, Eo. reflexivity.
      * reflexivity.
Qed.


Lemma renderStars_ten_glyphs (q : Q) :
  (0 <= q <= 10)%Q -> exists gs, renderStars (JFin q) = Ok gs /\ length gs = 10%nat.
Proof.
  intros [H0 H10].
  set (f := Qfloor q). set (h := Qle_bool (1 # 2) (q - inject_Z f)).
  set (e := Z.max 0 (10 - f - (if h then 1 else 0))).
  assert (Hh : half_of q = h).
  { unfold half_of, h, f. rewrite js_trunc_Q_nonneg by exact H0. reflexivity. }
  assert (Hf0 : (0 <= f)%Z) by (apply Qfloor_nonneg; exact H0).
  assert (Hf10 : (f <= 10)%Z) by (apply Qfloor_resp_le in H10; exact H10).
  assert (Hfh : (f + (if h then 1 else 0) <= 10)%Z).
  { destruct h eqn:Eh; [| lia].
    destruct (Z.eq_dec f 10%Z) as [E|E]; [| lia].
    exfalso. apply Qle_bool_iff in Eh.
    pose proof (Qfloor_le q) as Hl. fold f in Hl. rewrite E in Hl, Eh.
    unfold inject_Z in *. lra. }
  exists (stars_of f h e). split.
  - rewrite renderStars_JFin, Hh. fold f.
    replace ((0 <=? f)%Z && (f <=? max_array_length)%Z) with true; [reflexivity|].
    symmetry. apply andb_true_iff. unfold max_array_length.
    split; apply Z.leb_le; lia.
  - rewrite length_stars_of. unfold e. destruct h; lia.
Qed.

(** In every state the page can reach, a submit either leaves the review
    list as it is or appends one review, whose rating is a number in
    [1,10] and whose comment is not empty; such a review is drawn with
    exactly 10 star glyphs. *)
Theorem submit_adds_valid_review (st : Page.state) :
  Page.reachable st ->
  Page.reviews (Page.handleReviewSubmit st) = Page.reviews st
  \/ exists q gs,
       (1 <= q <= 10)%Q /\ Page.comment st <> ""
       /\ Page.reviews (Page.handleReviewSubmit st)
          = Page.reviews st ++ [mkReview (Page.next_oid st) (JFin q) (Page.comment st)]
       /\ renderStars (JFin q) = Ok gs /\ length gs = 10%nat.
Proof.
  intros Hr. unfold Page.handleReviewSubmit.
  destruct (Page.currentMovie st) as [m|]; [|left; reflexivity].
  destruct (Page.rating st) as [v|] eqn:Ev; [|left; reflexivity].
  destruct (String.eqb_spec (Page.comment st) "") as [_|Hc]; [left; reflexivity|].
  destruct (Page.out_of_range v) eqn:Eo; [left; reflexivity|].
  destruct (reachable_rating st Hr v Ev) as [Hnan _].
  apply out_of_range_false_cases in Eo as [E | [q [-> Hq]]]; [contradiction|].
  destruct (renderStars_ten_glyphs q) as [gs [Hgs Hlen]]; [lra|].
  right. exists q, gs. repeat split; try tauto; assumption.
Qed.

(** ** Stability of the rating sorts *)

Lemma filter_all_false {A} (f : A -> bool) (l : list A) :
  (forall z, In z l -> f z = false) -> List.filter f l = [].
Proof.
  induction l as [|a l IH]; intros H; simpl; [reflexivity|].
  rewrite (H a (or_introl eq_refl)). apply IH. intros z Hz. apply H. right. exact Hz.
Qed.

Section Stability.

Variable cmp : review -> review -> jsnum.
Variable P : review -> Prop.
Variable rank : review -> Q.
Variable cls : review -> bool.

(** [sort] puts [x] in front of [y] exactly when [x] ranks strictly lower. *)
Hypothesis before_rank : forall y x, P y -> P x ->
  goes_before cmp y x = negb (Qle_bool (rank y) (rank x)).
(** The reviews of one class all have the same rank. *)
Hypothesis cls_rank : forall x y, cls x = true -> cls y = true -> rank x == rank y.

Lemma rank_before_true (y x : review) : P y -> P x ->
  goes_before cmp y x = true -> rank_le rank x y.
Proof.
  intros Hy Hx. rewrite before_rank by assumption. unfold rank_le.
  intros E. apply negb_true_iff in E.
  rewrite <- Bool.not_true_iff_false, Qle_bool_iff in E.
  apply Qlt_le_weak, Qnot_le_lt. exact E.
Qed.

Lemma rank_before_false (y x : review) : P y -> P x ->
  goes_before cmp y x = false -> rank_le rank y x.
Proof.
  intros Hy Hx. rewrite before_rank by assumption. unfold rank_le.
  intros E. apply negb_false_iff, Qle_bool_iff in E. exact E.
Qed.

Lemma stable_insert (x : review) (acc : list review) :
  P x -> Forall P acc -> Sorted (rank_le rank) acc ->
  List.filter cls (sort_insert cmp x acc)
  = List.filter cls acc ++ (if cls x then [x] else []).
Proof.
  intros Hx. induction acc as [|y r IH]; intros Hacc Hs.
  - simpl. destruct (cls x); reflexivity.
  - inversion Hacc as [|? ? Hy Hr]; subst.
    cbn [sort_insert].
    change (js_gt (sort_compare cmp y x) (js_of_Z 0)) with (goes_before cmp y x).
    rewrite before_rank by assumption.
    destruct (Qle_bool (rank y) (rank x)) eqn:E; simpl negb; cbv iota.
    + apply Sorted_inv in Hs as [Hs _].
      simpl. rewrite (IH Hr Hs). destruct (cls y); reflexivity.
    + destruct (cls x) eqn:Ex.
      * change (List.filter cls (x :: y :: r))
          with (if cls x then x :: List.filter cls (y :: r)
                else List.filter cls (y :: r)).
        rewrite Ex.
        rewrite (filter_all_false cls (y :: r)); [reflexivity|].
        intros z Hz. destruct (cls z) eqn:Ez; [|reflexivity]. exfalso.
        assert (Hyz : (rank y <= rank z)%Q).
        { destruct Hz as [<- | Hz]; [apply Qle_refl|].
          apply Sorted_StronglySorted in Hs;
            [| intros a b c Hab Hbc; unfold rank_le in *; eapply Qle_trans; eassumption].
          inversion Hs as [|? ? _ Hall]; subst.
          rewrite Forall_forall in Hall. apply (Hall z). apply list_elem_of_In. exact Hz. }
        pose proof (cls_rank x z Ex Ez) as Hxz.
        rewrite <- Bool.not_true_iff_false, Qle_bool_iff in E.
        apply E. rewrite Hxz. exact Hyz.
      * rewrite app_nil_r. simpl. rewrite Ex. reflexivity.
Qed.

Lemma stable_fold (s acc : list review) :
  Forall P s -> Forall P acc -> Sorted (rank_le rank) acc ->
  List.filter cls (fold_left (fun acc x => sort_insert cmp x acc) s acc)
  = List.filter cls acc ++ List.filter cls s.
Proof.
  revert acc. induction s as [|x s IH]; intros acc Hs Hacc Hsorted; simpl.
  - rewrite app_nil_r. reflexivity.
  - inversion Hs as [|? ? Hx Hs']; subst.
    rewrite IH; [| exact Hs' | |].
    + rewrite stable_insert by assumption. rewrite <- app_assoc.
      destruct (cls x); reflexivity.
    + apply (Permutation_Forall (Permutation_sym (sort_insert_perm cmp x acc))).
      constructor; assumption.
    + apply (sort_insert_sorted cmp P (rank_le rank) rank_before_true rank_before_false);
        assumption.
Qed.

Lemma js_sort_stable (l : list review) :
  Forall P l -> List.filter cls (js_sort cmp l) = List.filter cls l.
Proof.
  intros H. unfold js_sort. rewrite stable_fold; [reflexivity | exact H | constructor | constructor].
Qed.

End Stability.

Lemma Qle_bool_opp (a b : Q) : Qle_bool (- b) (- a) = Qle_bool a b.
Proof.
  apply Bool.eq_iff_eq_true. rewrite !Qle_bool_iff. split; intros; lra.
Qed.

(** Sorting by 'highest' or 'lowest' is stable: for every rating value,
    the reviews with that rating appear in the sorted copy in the same
    order as in [reviews] (for reviews with finite ratings). *)
Theorem sortedReviews_stable (h : heap) (reviews : positive) (arr : list review)
  (o : sort_option) :
  h !! reviews = Some arr -> Forall finite_rating arr -> o <> Newest ->
  exists l,
    (sortedReviews h reviews o).1 !! (sortedReviews h reviews o).2 = Some l
    /\ forall k : Q,
         List.filter (fun r => Qeq_bool (rating_q (rating r)) k) l
         = List.filter (fun r => Qeq_bool (rating_q (rating r)) k) arr.
Proof.
  intros Harr Hfin Ho.
  destruct (sortedReviews_heap h reviews arr o Harr) as [_ [-> [_ Hc]]].
  eexists. split; [exact Hc|]. intros k.
  assert (Hcls : forall x y,
    Qeq_bool (rating_q (rating x)) k = true ->
    Qeq_bool (rating_q (rating y)) k = true ->
    rating_q (rating x) == rating_q (rating y)).
  { intros x y Hx Hy. apply Qeq_bool_iff in Hx, Hy. rewrite Hx, Hy. reflexivity. }
  destruct o; [contradiction | |].
  - apply (js_sort_stable _ finite_rating (fun r => - rating_q (rating r))); [| | exact Hfin].
    + intros y x Hy Hx. rewrite goes_before_highest by assumption.
      rewrite Qle_bool_opp. reflexivity.
    + intros x y Hx Hy. rewrite (Hcls x y Hx Hy). reflexivity.
  - apply (js_sort_stable _ finite_rating (fun r => rating_q (rating r))); [| | exact Hfin].
    + intros y x Hy Hx. rewrite goes_before_lowest by assumption. reflexivity.
    + exact Hcls.
Qed.

(** ** Searching *)

Lemma prefix_spec (q s : string) :
  String.prefix q s = true <-> exists post, s = String.append q post.
Proof.
  revert q. induction s as [|b s IH]; intros [|a q]; simpl.
  - split; [intros _; exists EmptyString; reflexivity | reflexivity].
  - split; [discriminate | intros [post H]; discriminate].
  - split; [intros _; exists (String b s); reflexivity | reflexivity].
  - destruct (ascii_dec a b) as [<-|Hab].
    + rewrite IH. split; intros [post H]; exists post;
        [rewrite H; reflexivity | injection H; auto].
    + split; [discriminate | intros [post H]; injection H; congruence].
Qed.

Lemma includes_spec (s q : string) :
  includes s q = true
  <-> exists pre post, s = String.append pre (String.append q post).
Proof.
  induction s as [|c s IH].
  - change (includes EmptyString q) with (String.prefix q EmptyString || false).
    rewrite orb_false_r, prefix_spec. split.
    + intros [post H]. exists EmptyString, post. exact H.
    + intros [pre [post H]]. exists post.
      destruct pre; [exact H | discriminate].
  - change (includes (String c s) q)
      with (String.prefix q (String c s) || includes s q).
    rewrite orb_true_iff, prefix_spec, IH. split.
    + intros [[post H] | [pre [post H]]].
      * exists EmptyString, post. exact H.
      * exists (String c pre), post. rewrite H. reflexivity.
    + intros [[|c' pre] [post H]].
      * left. exists post. exact H.
      * right. exists pre, post. injection H as _ H. exact H.
Qed.

Lemma toLowerCase_append (a b : string) :
  toLowerCase (String.append a b) = String.append (toLowerCase a) (toLowerCase b).
Proof. induction a as [|c a IH]; simpl; [reflexivity | rewrite IH; reflexivity]. Qed.

Lemma to_lower_char_idem (c : ascii) : to_lower_char (to_lower_char c) = to_lower_char c.
Proof. destruct c as [[] [] [] [] [] [] [] []]; vm_compute; reflexivity. Qed.

Lemma toLowerCase_idem (s : string) : toLowerCase (toLowerCase s) = toLowerCase s.
Proof.
  induction s as [|c s IH]; simpl; [reflexivity|].
  rewrite to_lower_char_idem, IH. reflexivity.
Qed.

Lemma includes_toLowerCase (s q : string) :
  includes s q = true -> includes (toLowerCase s) (toLowerCase q) = true.
Proof.
  rewrite !includes_spec. intros [pre [post ->]].
  exists (toLowerCase pre), (toLowerCase post).
  rewrite !toLowerCase_append. reflexivity.
Qed.

Lemma string_append_assoc (a b c : string) :
  String.append a (String.append b c) = String.append (String.append a b) c.
Proof.
  induction a as [|x a IH]; [reflexivity|].
  change (String x (String.append a (String.append b c))
          = String x (String.append (String.append a b) c)).
  rewrite IH. reflexivity.
Qed.

Lemma includes_trans (s q p : string) :
  includes s q = true -> includes q p = true -> includes s p = true.
Proof.
  rewrite !includes_spec. intros [pre [post ->]] [pre' [post' ->]].
  exists (String.append pre pre'), (String.append post' post).
  rewrite !string_append_assoc. reflexivity.
Qed.

Lemma filter_sublist_mono {A} (f g : A -> bool) (l : list A) :
  (forall x, f x = true -> g x = true) ->
  sublist (List.filter f l) (List.filter g l).
Proof.
  intros Hfg. induction l as [|a l IH]; simpl; [constructor|].
  destruct (f a) eqn:Ef.
  - rewrite (Hfg a Ef). apply sublist_skip. exact IH.
  - destruct (g a); [apply sublist_cons; exact IH | exact IH].
Qed.

Lemma includes_empty (s : string) : includes s "" = true.
Proof. destruct s; reflexivity. Qed.

(** Clearing the search box sets its query to the empty string and shows
    every fetched movie again: every title includes the empty string. *)
Theorem searchBar_clear (movies : list movie) :
  searchBar_handleChange movies "" = (""%string, movies).
Proof.
  unfold searchBar_handleChange, handleSearch. f_equal. cbv zeta.
  change (toLowerCase "") with EmptyString.
  induction movies as [|m ms IH]; [reflexivity|]. cbn [List.filter].
  rewrite includes_empty, IH. reflexivity.
Qed.

(** Searching is case-insensitive in the query: searching for a query and
    for its lowercase form gives the same movies. *)
Theorem handleSearch_case_insensitive (movies : list movie) (query : string) :
  handleSearch movies (toLowerCase query) = handleSearch movies query.
Proof. unfold handleSearch. rewrite toLowerCase_idem. reflexivity. Qed.

(** A fetched movie whose title contains the query exactly as typed is
    always among the search results. *)
Theorem handleSearch_finds_verbatim (movies : list movie) (query : string)
  (m : movie) :
  In m movies -> includes (title m) query = true ->
  In m (handleSearch movies query).
Proof.
  intros Hin Hinc. unfold handleSearch. apply filter_In. split; [exact Hin|].
  apply includes_toLowerCase. exact Hinc.
Qed.

(** Typing more narrows the search: when the new query contains the old
    one, the new results are a sublist (in the same order) of the old
    results. *)
Theorem handleSearch_narrowing (movies : list movie) (q1 q2 : string) :
  includes q2 q1 = true ->
  sublist (handleSearch movies q2) (handleSearch movies q1).
Proof.
  intros H. unfold handleSearch. apply filter_sublist_mono.
  intros m Hm. eapply includes_trans; [exact Hm|].
  apply includes_toLowerCase. exact H.
Qed.

(** ** The trailer *)

(** For a movie with exactly one YouTube video, [Home] (and the [Comedy]
    and [Horror] pages of part_000) set the trailer to [trailers[1]],
    which is undefined, so the modal shows the poster instead of the
    video; src/app/horror/page.tsx shows that one video. *)
Theorem fetchTrailer_single_youtube (prev : option trailer)
  (results : list trailer) (v : trailer) :
  youtube_trailers results = [v] ->
  Home.fetchTrailer prev (Some results) = None
  /\ HorrorPage.fetchTrailer prev (Some results) = Some v.
Proof.
  intros H. unfold Home.fetchTrailer, HorrorPage.fetchTrailer. cbv zeta.
  rewrite H. split; reflexivity.
Qed.

Lemma youtube_trailers_spec (results : list trailer) (t : trailer) :
  In t (youtube_trailers results) -> In t results /\ site t = "YouTube".
Proof.
  unfold youtube_trailers. rewrite filter_In. intros [Hin Hs].
  split; [exact Hin | apply String.eqb_eq; exact Hs].
Qed.

(** What each version of [fetchTrailer] does with the videos request.
    [Home] (and the [Comedy] and [Horror] pages of part_000) keeps the
    previous trailer, or, when exactly one returned video is on YouTube,
    sets the trailer to [None], or sets a returned YouTube video.
    src/app/horror/page.tsx keeps the previous trailer or sets a returned
    YouTube video. *)
Theorem fetchTrailer_outcomes (prev : option trailer)
  (response : videos_response) :
  (Home.fetchTrailer prev response = prev
   \/ (exists results, response = Some results
        /\ length (youtube_trailers results) = 1%nat
        /\ Home.fetchTrailer prev response = None)
   \/ (exists results t, response = Some results /\ In t results
        /\ site t = "YouTube" /\ Home.fetchTrailer prev response = Some t))
  /\ (HorrorPage.fetchTrailer prev response = prev
      \/ exists results t, response = Some results /\ In t results
          /\ site t = "YouTube" /\ HorrorPage.fetchTrailer prev response = Some t).
Proof.
  destruct response as [results|]; [| split; left; reflexivity].
  unfold Home.fetchTrailer, HorrorPage.fetchTrailer. cbv zeta.
  assert (Hin : forall t, In t (youtube_trailers results) ->
                In t results /\ site t = "YouTube")
    by (intros t; apply youtube_trailers_spec).
  destruct (youtube_trailers results) as [|y0 [|y1 ys]] eqn:E.
  - split; left; reflexivity.
  - destruct (Hin y0 (or_introl eq_refl)) as [H0 S0].
    split.
    + right. left. exists results. split; [reflexivity|].
      rewrite E. split; reflexivity.
    + right. exists results, y0. repeat split; assumption.
  - destruct (Hin y0 (or_introl eq_refl)) as [H0 S0].
    destruct (Hin y1 (or_intror (or_introl eq_refl))) as [H1 S1].
    split.
    + right. right. exists results, y1. repeat split; assumption.
    + right. exists results, y0. repeat split; assumption.
Qed.

(** ** The navigation bar *)

(** The navigation bar highlights exactly one of its three links when the
    current path is /comedy, /horror or /animation, and none on any other
    path. *)
Theorem navbar_highlight (pathname : string) :
  length (List.filter
            (fun c => String.eqb c (String.append "-mt-14 h-5 " active_link_style))
            (navbar_link_classes pathname))
  = if existsb (String.eqb pathname) ["/comedy"; "/horror"; "/animation"]
    then 1%nat else 0%nat.
Proof.
  unfold navbar_link_classes, linkStyle. cbn [map existsb].
  destruct (String.eqb_spec pathname "/comedy") as [->|H1];
    [vm_compute; reflexivity|].
  destruct (String.eqb_spec pathname "/horror") as [->|H2];
    [vm_compute; reflexivity|].
  destruct (String.eqb_spec pathname "/animation") as [->|H3];
    [vm_compute; reflexivity|].
  vm_compute. reflexivity.
Qed.

(** ** The further properties at concrete inputs *)

(** Saving for movie 1 does not change what movie 2 loads. *)
Lemma save_other_movie_witness :
  loadReviewsFromLocalStorage
    (saveReviewsToLocalStorage ∅ 1 [mkReview 1 (JFin 8) "ok"]) 2
  = loadReviewsFromLocalStorage ∅ 2.
Proof.
  exact (save_other_movie ∅ 1 2 [mkReview 1 (JFin 8) "ok"] ltac:(discriminate)).
Defined.

(** Open a movie and type 11 as rating. *)
Lemma reachable_errorMessage_witness :
  let m := mkMovie 5 "Alien" "" "" (JFin 8) in
  let st := Page.handleRatingChange (Page.openModal (Page.initial ∅) m)
              (js_of_Z 11) in
  Page.errorMessage st = Page.rating_message.
Proof.
  intros m st.
  assert (Hr : Page.reachable st).
  { apply (Page.reachable_step (Page.openModal (Page.initial ∅) m) st
             (Page.RatingChange (js_of_Z 11))); [| reflexivity].
    apply (Page.reachable_step (Page.initial ∅) _ (Page.OpenModal m));
      [apply Page.reachable_initial | reflexivity]. }
  exact (reachable_errorMessage st Hr).
Defined.


(** Open a movie, rate it 7, comment "great", submit. *)
Lemma submit_adds_valid_review_witness :
  let m := mkMovie 5 "Alien" "" "" (JFin 8) in
  let s1 := Page.openModal (Page.initial ∅) m in
  let s2 := Page.handleRatingChange s1 (js_of_Z 7) in
  let st := Page.setComment s2 "great" in
  Page.reviews (Page.handleReviewSubmit st) = Page.reviews st
  \/ exists q gs,
       (1 <= q <= 10)%Q /\ Page.comment st <> ""
       /\ Page.reviews (Page.handleReviewSubmit st)
          = Page.reviews st ++ [mkReview (Page.next_oid st) (JFin q) (Page.comment st)]
       /\ renderStars (JFin q) = Ok gs /\ length gs = 10%nat.
Proof.
  intros m s1 s2 st.
  assert (Hr : Page.reachable st).
  { apply (Page.reachable_step s2 st (Page.CommentChange "great"));
      [| reflexivity].
    apply (Page.reachable_step s1 s2 (Page.RatingChange (js_of_Z 7)));
      [| reflexivity].
    apply (Page.reachable_step (Page.initial ∅) s1 (Page.OpenModal m));
      [| reflexivity].
    apply Page.reachable_initial. }
  exact (submit_adds_valid_review st Hr).
Defined.

(** Ratings [5, 9, 5] sorted by 'highest': the two 5s keep their order. *)
Lemma sortedReviews_stable_witness :
  let A := mkReview 1 (JFin 5) "A" in
  let B := mkReview 2 (JFin 9) "B" in
  let C := mkReview 3 (JFin 5) "C" in
  let h0 : heap := {[ 1%positive := [A; B; C] ]} in
  exists l,
    (sortedReviews h0 1 Highest).1 !! (sortedReviews h0 1 Highest).2 = Some l
    /\ forall k : Q,
         List.filter (fun r => Qeq_bool (rating_q (rating r)) k) l
         = List.filter (fun r => Qeq_bool (rating_q (rating r)) k) [A; B; C].
Proof.
  intros A B C h0.
  exact (sortedReviews_stable h0 1 [A; B; C] Highest
           ltac:(vm_compute; reflexivity) ltac:(repeat constructor)
           ltac:(discriminate)).
Defined.

(** Searching "Thing" finds "The Thing". *)
Lemma handleSearch_finds_verbatim_witness :
  let m := mkMovie 1 "The Thing" "" "" (JFin 8) in
  In m (handleSearch [mkMovie 2 "Alien" "" "" (JFin 8); m] "Thing").
Proof.
  intros m.
  exact (handleSearch_finds_verbatim [mkMovie 2 "Alien" "" "" (JFin 8); m]
           "Thing" m ltac:(right; left; reflexivity)
           ltac:(vm_compute; reflexivity)).
Defined.

(** Typing "the" after "th". *)
Lemma handleSearch_narrowing_witness :
  let movies := [mkMovie 1 "The Thing" "" "" (JFin 8);
                 mkMovie 2 "Moth" "" "" (JFin 6)] in
  sublist (handleSearch movies "the") (handleSearch movies "th").
Proof.
  intros movies.
  exact (handleSearch_narrowing movies "th" "the" ltac:(vm_compute; reflexivity)).
Defined.

(** A Vimeo video and one YouTube video. *)
Lemma fetchTrailer_single_youtube_witness :
  let v := mkTrailer "k1" "YouTube" in
  let results := [mkTrailer "k0" "Vimeo"; v] in
  Home.fetchTrailer None (Some results) = None
  /\ HorrorPage.fetchTrailer None (Some results) = Some v.
Proof.
  intros v results.
  exact (fetchTrailer_single_youtube None results v eq_refl).
Defined.

